(** * Trivium, 64-bit batched version (examples/vhdl/Trivium/cref/trivium64.c)

    A shallow embedding of the C reference model of the Trivium core and
    the properties of its keystream step, seeding, word codec and stream
    driver.

    Conventions of the embedding.
    - [uint64_t] values are integers of [Z] in the range [0, 2^64); the only
      operation of the file that can leave the range is the left shift,
      whose wrap-around is written out ([shl64]).
    - [uint8_t] values are [byte]s.
    - The six global words [s11 .. s32] are a record that every function
      takes and returns.
    - Buffers are lists of bytes addressed by an index; an access outside
      the buffer and the overflow of an [int] have no defined behaviour in
      C and are outcomes of their own ([Undefined]). *)

From Stdlib Require Import ZArith List Lia Bool.
From coqutil Require Import Byte Z.bitblast.
Import ListNotations.

Local Open Scope Z_scope.

#[local] Arguments byte.of_Z : simpl never.
#[local] Arguments byte.unsigned : simpl never.

(** ** 64-bit unsigned words *)

Definition u64_ok (x : Z) : Prop := 0 <= x < 2 ^ 64.

Definition wrap64 (x : Z) : Z := x mod 2 ^ 64.

(** [x << n] and [x >> n] on [uint64_t], for [0 <= n < 64]. *)
Definition shl64 (x n : Z) : Z := wrap64 (Z.shiftl x n).
Definition shr64 (x n : Z) : Z := Z.shiftr x n.

Arguments wrap64 : simpl never.
Arguments shl64 : simpl never.
Arguments shr64 : simpl never.

(** ** The register state: [uint64_t s11, s12, s21, s22, s31, s32] *)

Record state : Type := mkState {
  s11 : Z; s12 : Z;
  s21 : Z; s22 : Z;
  s31 : Z; s32 : Z
}.

Definition set_s11 (v : Z) (g : state) : state :=
  mkState v (s12 g) (s21 g) (s22 g) (s31 g) (s32 g).
Definition set_s12 (v : Z) (g : state) : state :=
  mkState (s11 g) v (s21 g) (s22 g) (s31 g) (s32 g).
Definition set_s21 (v : Z) (g : state) : state :=
  mkState (s11 g) (s12 g) v (s22 g) (s31 g) (s32 g).
Definition set_s22 (v : Z) (g : state) : state :=
  mkState (s11 g) (s12 g) (s21 g) v (s31 g) (s32 g).
Definition set_s31 (v : Z) (g : state) : state :=
  mkState (s11 g) (s12 g) (s21 g) (s22 g) v (s32 g).
Definition set_s32 (v : Z) (g : state) : state :=
  mkState (s11 g) (s12 g) (s21 g) (s22 g) (s31 g) v.

Definition state_ok (g : state) : Prop :=
  u64_ok (s11 g) /\ u64_ok (s12 g) /\ u64_ok (s21 g) /\
  u64_ok (s22 g) /\ u64_ok (s31 g) /\ u64_ok (s32 g).

(** ** [trivium64_next] *)

(** The fifteen locals [s66 .. s69] of [trivium64_next]. *)
Record taps : Type := mkTaps {
  s66 : Z; s93 : Z; s162 : Z; s177 : Z; s243 : Z; s288 : Z;
  s91 : Z; s92 : Z; s171 : Z; s175 : Z; s176 : Z;
  s264 : Z; s286 : Z; s287 : Z; s69 : Z
}.

Definition extract_taps (g : state) : taps :=
  {| s66  := Z.lxor (shl64 (s12 g) 62) (shr64 (s11 g) 2);
     s93  := Z.lxor (shl64 (s12 g) 35) (shr64 (s11 g) 29);
     s162 := Z.lxor (shl64 (s22 g) 59) (shr64 (s21 g) 5);
     s177 := Z.lxor (shl64 (s22 g) 44) (shr64 (s21 g) 20);
     s243 := Z.lxor (shl64 (s32 g) 62) (shr64 (s31 g) 2);
     s288 := Z.lxor (shl64 (s32 g) 17) (shr64 (s31 g) 47);
     s91  := Z.lxor (shl64 (s12 g) 37) (shr64 (s11 g) 27);
     s92  := Z.lxor (shl64 (s12 g) 36) (shr64 (s11 g) 28);
     s171 := Z.lxor (shl64 (s22 g) 50) (shr64 (s21 g) 14);
     s175 := Z.lxor (shl64 (s22 g) 46) (shr64 (s21 g) 18);
     s176 := Z.lxor (shl64 (s22 g) 45) (shr64 (s21 g) 19);
     s264 := Z.lxor (shl64 (s32 g) 41) (shr64 (s31 g) 23);
     s286 := Z.lxor (shl64 (s32 g) 19) (shr64 (s31 g) 45);
     s287 := Z.lxor (shl64 (s32 g) 18) (shr64 (s31 g) 46);
     s69  := Z.lxor (shl64 (s12 g) 59) (shr64 (s11 g) 5) |}.

Definition trivium64_next (g : state) : Z * state :=
  let t := extract_taps g in
  let t1 := Z.lxor (s66 t) (s93 t) in                        (* update *)
  let t2 := Z.lxor (s162 t) (s177 t) in
  let t3 := Z.lxor (s243 t) (s288 t) in
  let z := Z.lxor (Z.lxor t1 t2) t3 in
  let t1 := Z.lxor t1 (Z.lxor (Z.land (s91 t) (s92 t)) (s171 t)) in
  let t2 := Z.lxor t2 (Z.lxor (Z.land (s175 t) (s176 t)) (s264 t)) in
  let t3 := Z.lxor t3 (Z.lxor (Z.land (s286 t) (s287 t)) (s69 t)) in
  let g := set_s12 (s11 g) g in                                (* rotate *)
  let g := set_s11 t3 g in
  let g := set_s22 (s21 g) g in
  let g := set_s21 t1 g in
  let g := set_s32 (s31 g) g in
  let g := set_s31 t2 g in
  (z, g).

(** The state and the output words of [k] successive calls. *)
Definition next_state (g : state) : state := snd (trivium64_next g).

Fixpoint keystream (k : nat) (g : state) : list Z :=
  match k with
  | O => []
  | S k' => let (z, g') := trivium64_next g in z :: keystream k' g'
  end.

(** The tap identity of the design description: the word read at offset [n]
    of a register whose last 128 bits are the pair ([newer], [older]). *)
Definition tap (older newer n : Z) : Z :=
  Z.lxor (shl64 older (128 - n)) (shr64 newer (n - 64)).

(** First bit offset of each register in the 288-bit Trivium state, minus
    one: register A holds s1..s93, B s94..s177 and C s178..s288. *)
Definition baseA : Z := 0.
Definition baseB : Z := 93.
Definition baseC : Z := 177.

(** ** Outcomes of code that can leave defined behaviour *)

Inductive ub : Type :=
| SignedOverflow   (* an [int] computation leaves [INT_MIN, INT_MAX] *)
| OutOfBounds.     (* a buffer is read or written outside its bounds *)

Inductive outcome (A : Type) : Type :=
| Ok (a : A)
| Undefined (e : ub)
| OutOfFuel.

Arguments Ok {A} a.
Arguments Undefined {A} e.
Arguments OutOfFuel {A}.

Definition bind {A B : Type} (m : outcome A) (f : A -> outcome B) : outcome B :=
  match m with
  | Ok a => f a
  | Undefined e => Undefined e
  | OutOfFuel => OutOfFuel
  end.

Notation "x <- m ;; k" := (bind m (fun x => k))
  (at level 61, m at next level, right associativity).
Notation "' pat <- m ;; k" := (bind m (fun x => match x with pat => k end))
  (at level 61, pat pattern, m at next level, right associativity).

(** [while (cond) body], with the loop variant at entry as fuel. *)
Section While.
Context {S : Type}.
Variable cond : S -> bool.
Variable body : S -> outcome S.

Fixpoint while (fuel : nat) (s : S) : outcome S :=
  if cond s then
    match fuel with
    | O => OutOfFuel
    | Datatypes.S fuel' => s' <- body s ;; while fuel' s'
    end
  else Ok s.
End While.

(** ** [int] and [size_t] *)

Definition INT_MAX : Z := 2 ^ 31 - 1.
Definition INT_MIN : Z := - 2 ^ 31.

(** [a + b] on [int]. *)
Definition int_add (a b : Z) : outcome Z :=
  if (INT_MIN <=? a + b) && (a + b <=? INT_MAX) then Ok (a + b)
  else Undefined SignedOverflow.

(** [size_t] is 64 bits wide; an [int] compared or added to a [size_t] is
    converted to it first. *)
Definition wrap_size (x : Z) : Z := x mod 2 ^ 64.
Definition size_of_int (i : Z) : Z := wrap_size i.

(** [sizeof(u)] for [uint64_t *u] (an LP64 target) and for [uint64_t u]. *)
Definition sizeof_ptr : Z := 8.
Definition sizeof_u64 : Z := 8.

(** ** Byte buffers *)

Fixpoint set_nth (n : nat) (b : byte) (mem : list byte) : list byte :=
  match mem, n with
  | [], _ => []
  | _ :: mem', O => b :: mem'
  | a :: mem', S n' => a :: set_nth n' b mem'
  end.

Definition in_bounds (mem : list byte) (p : Z) : bool :=
  (0 <=? p) && (p <? Z.of_nat (length mem)).

(** [mem[p]] read and written. *)
Definition load (mem : list byte) (p : Z) : outcome byte :=
  if in_bounds mem p then Ok (nth (Z.to_nat p) mem Byte.x00)
  else Undefined OutOfBounds.

Definition store (mem : list byte) (p : Z) (b : byte) : outcome (list byte) :=
  if in_bounds mem p then Ok (set_nth (Z.to_nat p) b mem)
  else Undefined OutOfBounds.

(** ** [trivium64_setseed] *)

Definition seed_registers (seed seq : Z) (g : state) : state :=
  let g := set_s11 seed g in
  let g := set_s12 0 g in
  let g := set_s21 seq g in
  let g := set_s22 0 g in
  let g := set_s31 0 g in
  set_s32 0x700000000000 g.

(** [for (int i = 0; i < 18; i++) trivium64_next();] over the pair of the
    counter and the registers; the outputs are dropped. *)
Definition blank_cond (s : Z * state) : bool := fst s <? 18.
Definition blank_body (s : Z * state) : outcome (Z * state) :=
  let (i, g) := s in
  let (_, g) := trivium64_next g in
  i <- int_add i 1 ;;
  Ok (i, g).

Definition blank_rounds (g : state) : outcome state :=
  '(_, g) <- while blank_cond blank_body (Z.to_nat 18) (0, g) ;;
  Ok g.

Definition trivium64_setseed (seed seq : Z) (g : state) : outcome state :=
  blank_rounds (seed_registers seed seq g).

(** ** The word codec: [bytes_to_uint64] and [uint64_to_bytes] *)

Definition b2u_cond (s : Z * Z) : bool := fst s <? sizeof_ptr - 1.
Definition b2u_body (bytes : list byte) (s : Z * Z) : outcome (Z * Z) :=
  let (i, u) := s in
  let bit_shifts := ((sizeof_ptr - 1 - i) * 8) mod 2 ^ 8 in
  b <- load bytes i ;;
  Ok (i + 1, Z.lor u (shl64 (byte.unsigned b) bit_shifts)).

Definition bytes_to_uint64 (bytes : list byte) : outcome Z :=
  b <- load bytes (sizeof_ptr - 1) ;;
  '(_, u) <- while b2u_cond (b2u_body bytes)
               (Z.to_nat (sizeof_ptr - 1)) (0, byte.unsigned b) ;;
  Ok u.

(** [uint64_to_bytes(u, &mem[p])]. *)
Definition u2b_cond (s : Z * Z * list byte) : bool :=
  let '(i, _, _) := s in i <? sizeof_u64.
Definition u2b_body (p : Z) (s : Z * Z * list byte)
  : outcome (Z * Z * list byte) :=
  let '(i, u, mem) := s in
  mem <- store mem (p + (sizeof_u64 - 1 - i)) (byte.of_Z (Z.land u 0xff)) ;;
  Ok (i + 1, shr64 u 8, mem).

Definition uint64_to_bytes (u : Z) (mem : list byte) (p : Z)
  : outcome (list byte) :=
  '(_, _, mem) <- while u2b_cond (u2b_body p) (Z.to_nat sizeof_u64) (0, u, mem) ;;
  Ok mem.

(** ** [trivium_api] *)

(** [for (int i = 0; i < ks_size - remainder; i += 8)]: the loop state is
    the counter, the registers and the output buffer. *)
Definition full_cond (bound : Z) (s : Z * state * list byte) : bool :=
  let '(i, _, _) := s in size_of_int i <? bound.
Definition full_body (s : Z * state * list byte)
  : outcome (Z * state * list byte) :=
  let '(i, g, ks) := s in
  let (ks64, g) := trivium64_next g in
  ks <- uint64_to_bytes ks64 ks i ;;
  i <- int_add i 8 ;;
  Ok (i, g, ks).

(** [for (int i = 0; i < remainder; i++)
       ks[ks_size - remainder + i] = (ks64 >> (7 - i)) & 0xff;] *)
Definition tail_cond (remainder : Z) (s : Z * list byte) : bool :=
  size_of_int (fst s) <? remainder.
Definition tail_body (ks_size remainder ks64 : Z) (s : Z * list byte)
  : outcome (Z * list byte) :=
  let (i, ks) := s in
  ks <- store ks (wrap_size (wrap_size (ks_size - remainder) + size_of_int i))
          (byte.of_Z (Z.land (shr64 ks64 (7 - i)) 0xff)) ;;
  i <- int_add i 1 ;;
  Ok (i, ks).

Definition trivium_api (g : state) (key iv : list byte) (ks_size : Z)
    (ks : list byte) : outcome (state * list byte) :=
  key64 <- bytes_to_uint64 key ;;
  iv64 <- bytes_to_uint64 iv ;;
  g <- trivium64_setseed key64 iv64 g ;;
  let remainder := ks_size mod 8 in
  '(_, g, ks) <- while (full_cond (wrap_size (ks_size - remainder))) full_body
                   (Z.to_nat (wrap_size (ks_size - remainder))) (0, g, ks) ;;
  if negb (remainder =? 0) then
    let (ks64, g) := trivium64_next g in
    '(_, ks) <- while (tail_cond remainder) (tail_body ks_size remainder ks64)
                  (Z.to_nat remainder) (0, ks) ;;
    Ok (g, ks)
  else Ok (g, ks).

(** The caller's view of [trivium_api]: the keystream buffer it leaves. *)
Definition generate (g : state) (key iv : list byte) (ks_size : Z)
    (ks : list byte) : outcome (list byte) :=
  '(_, ks) <- trivium_api g key iv ks_size ks ;;
  Ok ks.

(** The eight bytes of a word, most significant first, and the first [r]
    of them: the truncation the design description asks of the tail. *)
Definition be_bytes (w : Z) : list byte :=
  map (fun i => byte.of_Z (shr64 w (8 * (7 - Z.of_nat i)))) (seq 0 8).

Definition be_truncate (r : nat) (w : Z) : list byte := firstn r (be_bytes w).

(** What the tail loop of [trivium_api] stores for a remainder of [r]. *)
Definition tail_bytes (r : nat) (w : Z) : list byte :=
  map (fun i => byte.of_Z (Z.land (shr64 w (7 - Z.of_nat i)) 0xff)) (seq 0 r).

(** ** Bit-serial Trivium

    The cipher as its designers state it and as the design description
    refers to it: a 288-bit state s1..s288 in three shift registers of 93,
    84 and 111 bits, one output bit per round.  Nothing here is taken
    from trivium64.c: it is the other side of the refinement. *)

Module TriviumRef.

Record regs : Type := mkRegs {
  ra : list bool;   (* s1   .. s93  *)
  rb : list bool;   (* s94  .. s177 *)
  rc : list bool    (* s178 .. s288 *)
}.

(** The state bit s_i, for i in 1..288. *)
Definition s (r : regs) (i : nat) : bool :=
  if (i <=? 93)%nat then nth (i - 1) (ra r) false
  else if (i <=? 177)%nat then nth (i - 94) (rb r) false
  else nth (i - 178) (rc r) false.

(** (s1, s2, .., sn) <- (b, s1, .., s(n-1)). *)
Definition shift_in (b : bool) (r : list bool) : list bool :=
  b :: removelast r.

Definition round (r : regs) : bool * regs :=
  let t1 := xorb (s r 66) (s r 93) in
  let t2 := xorb (s r 162) (s r 177) in
  let t3 := xorb (s r 243) (s r 288) in
  let z := xorb (xorb t1 t2) t3 in
  let t1 := xorb (xorb t1 (s r 91 && s r 92)) (s r 171) in
  let t2 := xorb (xorb t2 (s r 175 && s r 176)) (s r 264) in
  let t3 := xorb (xorb t3 (s r 286 && s r 287)) (s r 69) in
  (z, {| ra := shift_in t3 (ra r);
         rb := shift_in t1 (rb r);
         rc := shift_in t2 (rc r) |}).

(** The output bits of [n] rounds, first round first. *)
Fixpoint run (n : nat) (r : regs) : list bool :=
  match n with
  | O => []
  | S n' => let (z, r') := round r in z :: run n' r'
  end.

Fixpoint rounds (n : nat) (r : regs) : regs :=
  match n with
  | O => r
  | S n' => rounds n' (snd (round r))
  end.

(** Bits 0 .. n-1 of a word, bit 0 first. *)
Definition word_bits (x : Z) (n : nat) : list bool :=
  map (fun i => Z.testbit x (Z.of_nat i)) (seq 0 n).

(** The canonical initial state for a 64-bit key and a 64-bit sequence
    number: the key at the head of register A, the sequence number at the
    head of register B, zeros elsewhere but for s286 = s287 = s288 = 1. *)
Definition init (key seq : Z) : regs :=
  {| ra := word_bits key 64 ++ repeat false 29;
     rb := word_bits seq 64 ++ repeat false 20;
     rc := repeat false 108 ++ [true; true; true] |}.

(** A run of bits as one number, the first bit the most significant. *)
Definition pack_msb (bits : list bool) : Z :=
  fold_left (fun acc b => 2 * acc + Z.b2z b) bits 0.

(** The first [k] 64-bit words of a bit stream. *)
Fixpoint words (k : nat) (bits : list bool) : list Z :=
  match k with
  | O => []
  | S k' => pack_msb (firstn 64 bits) :: words k' (skipn 64 bits)
  end.

End TriviumRef.

(** The bit-serial state a register state stands for: bit [p] of the pair
    ([newer], [older]) of a register is its state bit number [p + 1]. *)
Definition hist (newer older : Z) (p : Z) : bool :=
  if p <? 64 then Z.testbit newer p else Z.testbit older (p - 64).

Definition hist_bits (newer older : Z) (n : nat) : list bool :=
  map (fun i => hist newer older (Z.of_nat i)) (seq 0 n).

Definition bits_of_state (g : state) : TriviumRef.regs :=
  {| TriviumRef.ra := hist_bits (s11 g) (s12 g) 93;
     TriviumRef.rb := hist_bits (s21 g) (s22 g) 84;
     TriviumRef.rc := hist_bits (s31 g) (s32 g) 111 |}.

(** A register part-way through a batch of 64 rounds: the bits of the word
    [new] that the step computes enter one by one, most significant first,
    ahead of the pair ([newer], [older]).  After [t] rounds the register
    reads [ext] from position [64 - t] on. *)
Definition ext (new newer older : Z) (p : Z) : bool :=
  if p <? 64 then Z.testbit new p else hist newer older (p - 64).

Definition ext_bits (new newer older : Z) (t n : nat) : list bool :=
  map (fun i => ext new newer older (64 - Z.of_nat t + Z.of_nat i)) (seq 0 n).

Definition mid_state (g : state) (t : nat) : TriviumRef.regs :=
  let g' := next_state g in
  {| TriviumRef.ra := ext_bits (s11 g') (s11 g) (s12 g) t 93;
     TriviumRef.rb := ext_bits (s21 g') (s21 g) (s22 g) t 84;
     TriviumRef.rc := ext_bits (s31 g') (s31 g) (s32 g) t 111 |}.

(** The bits of a 64-bit word in the order the rounds put them out. *)
Definition msb_first (z : Z) (n : nat) : list bool :=
  map (fun i => Z.testbit z (63 - Z.of_nat i)) (seq 0 n).


(** ** What the driver computes

    The registers after [k] steps, the registers seeding leaves, the bytes
    of [k] full output words and the bytes of a request of [n] bytes as
    [trivium_api] writes them. *)
Definition steps (k : nat) (g : state) : state := Nat.iter k next_state g.

Definition seeded (seed seq : Z) : state :=
  steps 18 (mkState seed 0 seq 0 0 0x700000000000).

Definition stream_bytes (k : nat) (g : state) : list byte :=
  flat_map be_bytes (keystream k g).

Definition stream_out (g : state) (n : Z) : list byte :=
  let k := Z.to_nat (n / 8) in
  stream_bytes k g ++
  tail_bytes (Z.to_nat (n mod 8)) (fst (trivium64_next (steps k g))).

(** The number of steps a request of [n] bytes takes. *)
Definition steps_for (n : Z) : nat := Z.to_nat ((n + 7) / 8).

(** The number eight bytes or fewer stand for, the first byte the most
    significant. *)
Definition be_value (b : list byte) : Z :=
  fold_left (fun acc x => acc * 2 ^ 8 + byte.unsigned x) b 0.

(** * Properties *)

(** ** Words and bits *)

Lemma u64_ok_high_bits x j : u64_ok x -> 64 <= j -> Z.testbit x j = false.
Proof.
  intros Hx Hj. unfold u64_ok in Hx.
  rewrite <- (Z.mod_small x (2 ^ 64)) by exact Hx.
  apply Z.mod_pow2_bits_high. lia.
Qed.

Lemma u64_ok_of_bits x :
  0 <= x -> (forall j, 64 <= j -> Z.testbit x j = false) -> u64_ok x.
Proof.
  intros H0 Hb. split; [exact H0|].
  destruct (Z.eq_dec x 0) as [->|Hne]; [reflexivity|].
  assert (Hpos : 0 < x) by lia.
  apply Z.log2_lt_pow2; [exact Hpos|].
  destruct (Z_lt_le_dec (Z.log2 x) 64) as [Hl|Hl]; [exact Hl|].
  pose proof (Z.bit_log2 x Hpos) as Hbit.
  rewrite (Hb _ Hl) in Hbit. discriminate.
Qed.

Lemma wrap64_ok x : u64_ok (wrap64 x).
Proof. unfold u64_ok, wrap64. apply Z.mod_pos_bound. reflexivity. Qed.

Lemma shl64_ok x n : u64_ok (shl64 x n).
Proof. apply wrap64_ok. Qed.

Lemma shr64_ok x n : u64_ok x -> 0 <= n -> u64_ok (shr64 x n).
Proof.
  intros Hx Hn. unfold shr64. apply u64_ok_of_bits.
  - apply Z.shiftr_nonneg. apply Hx.
  - intros j Hj. rewrite Z.shiftr_spec by lia.
    apply u64_ok_high_bits; [exact Hx | lia].
Qed.

Lemma lxor_ok x y : u64_ok x -> u64_ok y -> u64_ok (Z.lxor x y).
Proof.
  intros Hx Hy. apply u64_ok_of_bits.
  - apply Z.lxor_nonneg. unfold u64_ok in *. lia.
  - intros j Hj. rewrite Z.lxor_spec.
    rewrite (u64_ok_high_bits x j Hx Hj), (u64_ok_high_bits y j Hy Hj).
    reflexivity.
Qed.

Lemma land_ok x y : u64_ok x -> u64_ok y -> u64_ok (Z.land x y).
Proof.
  intros Hx Hy. apply u64_ok_of_bits.
  - apply Z.land_nonneg. left. apply Hx.
  - intros j Hj. rewrite Z.land_spec.
    rewrite (u64_ok_high_bits x j Hx Hj). reflexivity.
Qed.

Lemma trivium64_next_ok g :
  state_ok g ->
  u64_ok (fst (trivium64_next g)) /\ state_ok (snd (trivium64_next g)).
Proof.
  intros (H11 & H12 & H21 & H22 & H31 & H32).
  unfold trivium64_next, state_ok, extract_taps; cbn.
  repeat split;
    repeat first [ assumption
                 | apply lxor_ok | apply land_ok
                 | apply shl64_ok
                 | apply shr64_ok; [assumption | lia] ].
  all: unfold u64_ok in *; lia.
Qed.

Lemma next_state_ok g : state_ok g -> state_ok (next_state g).
Proof. intros H. apply (trivium64_next_ok g H). Qed.

(** Bit [j] of the word read at offset [n] is bit [j + n - 64] of the
    register's 128-bit history. *)
Lemma tap_testbit older newer n j :
  u64_ok newer -> 64 <= n <= 128 -> 0 <= j < 64 ->
  Z.testbit (tap older newer n) j = hist newer older (j + n - 64).
Proof.
  intros Hn Hr Hj. unfold tap, shl64, shr64, wrap64, hist.
  rewrite Z.lxor_spec, Z.testbit_mod_pow2 by lia.
  rewrite Z.shiftl_spec, Z.shiftr_spec by lia.
  replace (j <? 64) with true by (symmetry; apply Z.ltb_lt; lia).
  cbn [andb].
  destruct (Z.ltb_spec (j + n - 64) 64) as [Hlt|Hge].
  - rewrite Z.testbit_neg_r by lia. cbn.
    f_equal. lia.
  - rewrite (u64_ok_high_bits newer) by (assumption || lia).
    rewrite xorb_false_r. f_equal. lia.
Qed.

(** ** The keystream step *)

(** The pair ([newer], [older]) as one 128-bit number, [newer] in the low
    half: [hist] reads its bits. *)
Lemma hist_testbit newer older p :
  u64_ok newer -> 0 <= older -> 0 <= p ->
  hist newer older p = Z.testbit (newer + 2 ^ 64 * older) p.
Proof.
  intros Hn Ho Hp.
  assert (Hsum : newer + 2 ^ 64 * older = Z.lor newer (Z.shiftl older 64)).
  { rewrite Z.shiftl_mul_pow2, (Z.mul_comm older) by lia.
    symmetry. apply Z.or_to_plus.
    apply Z.bits_inj'. intros j Hj.
    rewrite Z.land_spec, Z.bits_0.
    destruct (Z.ltb_spec j 64) as [Hlt|Hge].
    - rewrite Z.mul_comm, Z.mul_pow2_bits_low by lia. apply andb_false_r.
    - rewrite (u64_ok_high_bits newer j Hn Hge). reflexivity. }
  rewrite Hsum, Z.lor_spec, Z.shiftl_spec by exact Hp.
  unfold hist. destruct (Z.ltb_spec p 64) as [Hlt|Hge].
  - rewrite (Z.testbit_neg_r older) by lia. symmetry. apply orb_false_r.
  - rewrite (u64_ok_high_bits newer p Hn Hge). reflexivity.
Qed.

(** C2: every local of the step is the tap identity
    [(older << (128 - n)) ^ (newer >> (n - 64))] at the offset [n] of the
    tap inside its own register, and the taps are s66, s93, s91, s92, s69
    of register A, s162, s177, s171, s175, s176 of register B and s243,
    s288, s264, s286, s287 of register C.  The identity reads the 128-bit
    history of the register, the newer word in its low half, from bit
    [n - 64] on. *)
Theorem extract_taps_identity (g : state) :
  extract_taps g =
  {| s66  := tap (s12 g) (s11 g) (66 - baseA);
     s93  := tap (s12 g) (s11 g) (93 - baseA);
     s162 := tap (s22 g) (s21 g) (162 - baseB);
     s177 := tap (s22 g) (s21 g) (177 - baseB);
     s243 := tap (s32 g) (s31 g) (243 - baseC);
     s288 := tap (s32 g) (s31 g) (288 - baseC);
     s91  := tap (s12 g) (s11 g) (91 - baseA);
     s92  := tap (s12 g) (s11 g) (92 - baseA);
     s171 := tap (s22 g) (s21 g) (171 - baseB);
     s175 := tap (s22 g) (s21 g) (175 - baseB);
     s176 := tap (s22 g) (s21 g) (176 - baseB);
     s264 := tap (s32 g) (s31 g) (264 - baseC);
     s286 := tap (s32 g) (s31 g) (286 - baseC);
     s287 := tap (s32 g) (s31 g) (287 - baseC);
     s69  := tap (s12 g) (s11 g) (69 - baseA) |} /\
  (forall older newer n j,
     u64_ok older -> u64_ok newer -> 64 < n <= 128 -> 0 <= j < 64 ->
     Z.testbit (tap older newer n) j =
     Z.testbit (newer + 2 ^ 64 * older) (j + n - 64)).
Proof.
  split; [reflexivity|].
  intros older newer n j Ho Hn Hr Hj.
  rewrite tap_testbit by (assumption || lia).
  apply hist_testbit; [exact Hn | apply Ho | lia].
Qed.

Lemma extract_taps_identity_witness :
  s93 (extract_taps (mkState 0x1112131415161718 5 0 0 0 0)) =
    tap 5 0x1112131415161718 (93 - baseA) /\
  Z.testbit (tap 5 0x1112131415161718 93) 40 =
    Z.testbit (0x1112131415161718 + 2 ^ 64 * 5) (40 + 93 - 64).
Proof.
  split.
  - exact (f_equal s93
             (proj1 (extract_taps_identity
                       (mkState 0x1112131415161718 5 0 0 0 0)))).
  - apply (proj2 (extract_taps_identity (mkState 0 0 0 0 0 0)));
      unfold u64_ok; lia.
Defined.

(** C3: the step returns z = (s66 ^ s93) ^ (s162 ^ s177) ^ (s243 ^ s288)
    and leaves every register pair as (new word, previous newer word):
    A takes t3 (the branch of C, closed with s69), B takes t1 (the branch
    of A, closed with s171) and C takes t2 (the branch of B, closed with
    s264). *)
Theorem trivium64_next_spec (g : state) :
  let t := extract_taps g in
  let z := Z.lxor (Z.lxor (Z.lxor (s66 t) (s93 t)) (Z.lxor (s162 t) (s177 t)))
             (Z.lxor (s243 t) (s288 t)) in
  let t1 := Z.lxor (Z.lxor (Z.lxor (s66 t) (s93 t))
                      (Z.land (s91 t) (s92 t))) (s171 t) in
  let t2 := Z.lxor (Z.lxor (Z.lxor (s162 t) (s177 t))
                      (Z.land (s175 t) (s176 t))) (s264 t) in
  let t3 := Z.lxor (Z.lxor (Z.lxor (s243 t) (s288 t))
                      (Z.land (s286 t) (s287 t))) (s69 t) in
  trivium64_next g =
  (z, {| s11 := t3; s12 := s11 g;
         s21 := t1; s22 := s21 g;
         s31 := t2; s32 := s31 g |}).
Proof.
  cbv zeta. unfold trivium64_next. cbv zeta.
  unfold set_s11, set_s12, set_s21, set_s22, set_s31, set_s32. cbn [s11 s12 s21 s22 s31 s32].
  rewrite !Z.lxor_assoc. reflexivity.
Qed.

(** ** The batched step against 64 bit-serial rounds *)

Lemma nth_map_seq {A : Type} (f : nat -> A) (n i : nat) (d : A) :
  (i < n)%nat -> nth i (map f (seq 0 n)) d = f i.
Proof.
  intros Hi.
  rewrite (nth_indep _ d (f 0%nat)) by (rewrite length_map, length_seq; exact Hi).
  rewrite map_nth, seq_nth by exact Hi. reflexivity.
Qed.

Lemma removelast_map_seq {A : Type} (f : nat -> A) (n : nat) :
  removelast (map f (seq 0 (S n))) = map f (seq 0 n).
Proof.
  rewrite seq_S, map_app. cbn [map].
  apply removelast_last.
Qed.

Lemma map_seq_shift {A : Type} (f : nat -> A) (n : nat) :
  map f (seq 0 (S n)) = f 0%nat :: map (fun i => f (S i)) (seq 0 n).
Proof.
  cbn [seq map]. f_equal. rewrite <- seq_shift, map_map. reflexivity.
Qed.

Lemma shift_in_ext_bits new newer older (t n : nat) (b : bool) :
  (t < 64)%nat ->
  b = Z.testbit new (63 - Z.of_nat t) ->
  TriviumRef.shift_in b (ext_bits new newer older t (S n)) =
  ext_bits new newer older (S t) (S n).
Proof.
  intros Ht ->. unfold TriviumRef.shift_in, ext_bits.
  rewrite removelast_map_seq, (map_seq_shift _ n).
  f_equal.
  - unfold ext.
    replace (64 - Z.of_nat (S t) + Z.of_nat 0) with (63 - Z.of_nat t) by lia.
    replace (63 - Z.of_nat t <? 64) with true
      by (symmetry; apply Z.ltb_lt; lia).
    reflexivity.
  - apply map_ext. intros i. f_equal. lia.
Qed.

Lemma mid_state_0 g : mid_state g 0 = bits_of_state g.
Proof.
  unfold mid_state, bits_of_state, ext_bits, hist_bits. cbv zeta.
  f_equal; apply map_ext; intros i; unfold ext;
    replace (64 - Z.of_nat 0 + Z.of_nat i <? 64) with false
      by (symmetry; apply Z.ltb_ge; lia);
    f_equal; lia.
Qed.

Lemma ext_bits_64 new newer older n :
  (n <= 128)%nat ->
  ext_bits new newer older 64 n = hist_bits new newer n.
Proof.
  intros Hn. unfold ext_bits, hist_bits.
  apply map_ext_in. intros i Hi. apply in_seq in Hi.
  unfold ext, hist.
  replace (64 - Z.of_nat 64 + Z.of_nat i) with (Z.of_nat i) by lia.
  destruct (Z.ltb_spec (Z.of_nat i) 64) as [Hlt|Hge]; [reflexivity|].
  replace (Z.of_nat i - 64 <? 64) with true
    by (symmetry; apply Z.ltb_lt; lia).
  reflexivity.
Qed.

Lemma mid_state_64 g : mid_state g 64 = bits_of_state (next_state g).
Proof.
  unfold mid_state, bits_of_state. cbv zeta.
  rewrite !ext_bits_64 by lia.
  unfold next_state, trivium64_next; cbn. reflexivity.
Qed.

(** A state bit of a register [t] rounds into the batch, read from the
    pair the batch started with. *)
Lemma nth_ext_bits new newer older (t n i : nat) :
  (t < 64)%nat -> (i < n)%nat -> (64 <= i)%nat ->
  nth i (ext_bits new newer older t n) false =
  hist newer older (Z.of_nat i - Z.of_nat t).
Proof.
  intros Ht Hi Hlo. unfold ext_bits. rewrite nth_map_seq by exact Hi.
  unfold ext.
  replace (64 - Z.of_nat t + Z.of_nat i <? 64) with false
    by (symmetry; apply Z.ltb_ge; lia).
  f_equal. lia.
Qed.

Lemma shifted_pair_testbit older newer a b j :
  u64_ok newer -> a + b = 64 -> 0 <= b <= 64 -> 0 <= j < 64 ->
  Z.testbit (Z.lxor (shl64 older a) (shr64 newer b)) j =
  hist newer older (j + b).
Proof.
  intros Hn Hab Hb Hj.
  transitivity (Z.testbit (tap older newer (b + 64)) j).
  { unfold tap. do 2 f_equal; f_equal; lia. }
  rewrite tap_testbit by (assumption || lia). f_equal. lia.
Qed.

Ltac tap_bit :=
  unfold TriviumRef.s, mid_state; cbv zeta;
  cbn [Nat.leb Nat.sub TriviumRef.ra TriviumRef.rb TriviumRef.rc];
  rewrite nth_ext_bits by lia;
  unfold extract_taps;
  cbn [s66 s93 s162 s177 s243 s288 s91 s92 s171 s175 s176 s264 s286 s287 s69];
  rewrite shifted_pair_testbit by (assumption || lia);
  f_equal; lia.

(** The fifteen state bits a round reads, [t] rounds into the batch, are
    bit [63 - t] of the fifteen tap words of the step. *)
Lemma mid_taps g (t : nat) :
  state_ok g -> (t < 64)%nat ->
  let r := mid_state g t in
  let w := extract_taps g in
  let j := 63 - Z.of_nat t in
  (TriviumRef.s r 66 = Z.testbit (s66 w) j /\
   TriviumRef.s r 93 = Z.testbit (s93 w) j /\
   TriviumRef.s r 91 = Z.testbit (s91 w) j /\
   TriviumRef.s r 92 = Z.testbit (s92 w) j /\
   TriviumRef.s r 69 = Z.testbit (s69 w) j) /\
  (TriviumRef.s r 162 = Z.testbit (s162 w) j /\
   TriviumRef.s r 177 = Z.testbit (s177 w) j /\
   TriviumRef.s r 171 = Z.testbit (s171 w) j /\
   TriviumRef.s r 175 = Z.testbit (s175 w) j /\
   TriviumRef.s r 176 = Z.testbit (s176 w) j) /\
  (TriviumRef.s r 243 = Z.testbit (s243 w) j /\
   TriviumRef.s r 288 = Z.testbit (s288 w) j /\
   TriviumRef.s r 264 = Z.testbit (s264 w) j /\
   TriviumRef.s r 286 = Z.testbit (s286 w) j /\
   TriviumRef.s r 287 = Z.testbit (s287 w) j).
Proof.
  intros (H11 & H12 & H21 & H22 & H31 & H32) Ht. cbv zeta.
  repeat split; tap_bit.
Qed.

Lemma round_mid g (t : nat) :
  state_ok g -> (t < 64)%nat ->
  TriviumRef.round (mid_state g t) =
  (Z.testbit (fst (trivium64_next g)) (63 - Z.of_nat t), mid_state g (S t)).
Proof.
  intros Hg Ht.
  destruct (mid_taps g t Hg Ht)
    as ((A66 & A93 & A91 & A92 & A69) & (B162 & B177 & B171 & B175 & B176)
        & (C243 & C288 & C264 & C286 & C287)).
  unfold TriviumRef.round.
  rewrite A66, A93, A91, A92, A69, B162, B177, B171, B175, B176,
    C243, C288, C264, C286, C287.
  f_equal.
  - unfold trivium64_next. cbn [fst]. rewrite !Z.lxor_spec. reflexivity.
  - unfold mid_state at 4. cbv zeta.
    unfold mid_state at 1 2 3. cbv zeta.
    cbn [TriviumRef.ra TriviumRef.rb TriviumRef.rc].
    f_equal; apply shift_in_ext_bits; try exact Ht;
      unfold next_state, trivium64_next;
      cbn [snd set_s11 set_s12 set_s21 set_s22 set_s31 set_s32
           s11 s12 s21 s22 s31 s32];
      rewrite !Z.lxor_spec, Z.land_spec;
      rewrite ?xorb_assoc; reflexivity.
Qed.

Lemma rounds_add a b r :
  TriviumRef.rounds (a + b) r = TriviumRef.rounds b (TriviumRef.rounds a r).
Proof.
  revert r. induction a as [|a IH]; intros r; cbn; [reflexivity | apply IH].
Qed.

Lemma run_add a b r :
  TriviumRef.run (a + b) r =
  TriviumRef.run a r ++ TriviumRef.run b (TriviumRef.rounds a r).
Proof.
  revert r. induction a as [|a IH]; intros r; cbn [TriviumRef.run TriviumRef.rounds Nat.add app].
  - reflexivity.
  - destruct (TriviumRef.round r) as [z r'] eqn:E. cbn [snd app].
    rewrite IH. reflexivity.
Qed.

Lemma run_length n r : length (TriviumRef.run n r) = n.
Proof.
  revert r. induction n as [|n IH]; intros r; cbn [TriviumRef.run].
  - reflexivity.
  - destruct (TriviumRef.round r) as [z r']. cbn. rewrite IH. reflexivity.
Qed.

(** The first [t] rounds of a batch, for [t] up to 64. *)
Lemma batch_prefix g (t : nat) :
  state_ok g -> (t <= 64)%nat ->
  TriviumRef.rounds t (bits_of_state g) = mid_state g t /\
  TriviumRef.run t (bits_of_state g) = msb_first (fst (trivium64_next g)) t.
Proof.
  intros Hg. induction t as [|t IH]; intros Ht.
  - split; [symmetry; apply mid_state_0 | reflexivity].
  - destruct IH as [IHr IHo]; [lia|].
    replace (S t) with (t + 1)%nat by lia.
    rewrite rounds_add, run_add, IHr, IHo.
    cbn [TriviumRef.rounds TriviumRef.run].
    rewrite round_mid by (assumption || lia). cbn [snd].
    split; [f_equal; lia|].
    unfold msb_first. rewrite seq_app, map_app. reflexivity.
Qed.

Lemma batch g :
  state_ok g ->
  TriviumRef.rounds 64 (bits_of_state g) = bits_of_state (next_state g) /\
  TriviumRef.run 64 (bits_of_state g) = msb_first (fst (trivium64_next g)) 64.
Proof.
  intros Hg. destruct (batch_prefix g 64 Hg) as [Hr Ho]; [lia|].
  rewrite Hr, Ho, mid_state_64. split; reflexivity.
Qed.

(** Packing the [n] lowest bits of [z], the highest of them first. *)
Lemma pack_msb_app bits b :
  TriviumRef.pack_msb (bits ++ [b]) = 2 * TriviumRef.pack_msb bits + Z.b2z b.
Proof. unfold TriviumRef.pack_msb. rewrite fold_left_app. reflexivity. Qed.

Lemma pack_low_bits z (n : nat) :
  TriviumRef.pack_msb
    (map (fun i => Z.testbit z (Z.of_nat n - 1 - Z.of_nat i)) (seq 0 n)) =
  z mod 2 ^ Z.of_nat n.
Proof.
  revert z. induction n as [|n IH]; intros z.
  - cbn. rewrite Z.mod_1_r. reflexivity.
  - rewrite seq_S, map_app. cbn [map Nat.add]. rewrite pack_msb_app.
    replace (Z.of_nat (S n) - 1 - Z.of_nat n) with 0 by lia.
    rewrite (map_ext_in _ (fun i => Z.testbit (Z.div2 z) (Z.of_nat n - 1 - Z.of_nat i))).
    + rewrite IH. rewrite Z.bit0_mod, Z.div2_div.
      replace (Z.of_nat (S n)) with (Z.of_nat n + 1) by lia.
      rewrite Z.pow_add_r by lia. change (2 ^ 1) with 2.
      pose proof (Z.pow_pos_nonneg 2 (Z.of_nat n) ltac:(lia) ltac:(lia)) as Hp.
      rewrite (Z.mul_comm (2 ^ Z.of_nat n) 2).
      rewrite (Z.rem_mul_r z 2 (2 ^ Z.of_nat n)) by lia. lia.
    + intros i Hi. apply in_seq in Hi.
      rewrite Z.div2_spec, Z.shiftr_spec by lia. f_equal. lia.
Qed.

Lemma pack_msb_first z : u64_ok z -> TriviumRef.pack_msb (msb_first z 64) = z.
Proof.
  intros Hz. unfold msb_first.
  change 63 with (Z.of_nat 64 - 1).
  rewrite (pack_low_bits z 64). apply Z.mod_small. exact Hz.
Qed.

(** [k] steps against [64 * k] rounds, from any register state. *)
Lemma keystream_refines (k : nat) g :
  state_ok g ->
  keystream k g =
  TriviumRef.words k (TriviumRef.run (64 * k) (bits_of_state g)).
Proof.
  revert g. induction k as [|k IH]; intros g Hg.
  - reflexivity.
  - replace (64 * S k)%nat with (64 + 64 * k)%nat by lia.
    destruct (batch g Hg) as [Hr Ho].
    destruct (trivium64_next_ok g Hg) as [Hz Hg'].
    rewrite run_add, Hr, Ho.
    cbn [keystream TriviumRef.words].
    assert (Hlen : length (msb_first (fst (trivium64_next g)) 64) = 64%nat)
      by (unfold msb_first; rewrite length_map, length_seq; reflexivity).
    rewrite firstn_app, skipn_app, Hlen, Nat.sub_diag.
    rewrite firstn_all2, skipn_all2 by lia.
    cbn [firstn skipn app]. rewrite app_nil_r.
    rewrite pack_msb_first by exact Hz.
    unfold next_state in *.
    destruct (trivium64_next g) as [z g'] eqn:E. cbn [fst snd] in *.
    f_equal. apply (IH g' Hg').
Qed.

Lemma seed_registers_eq seed seq g :
  seed_registers seed seq g = mkState seed 0 seq 0 0 0x700000000000.
Proof. reflexivity. Qed.

Lemma seed_registers_ok seed seq g :
  u64_ok seed -> u64_ok seq -> state_ok (seed_registers seed seq g).
Proof.
  intros Hk Hs. rewrite seed_registers_eq. unfold state_ok; cbn.
  repeat split; try apply Hk; try apply Hs; try reflexivity; discriminate.
Qed.

(** The registers as seeded stand for the canonical initial state. *)
Lemma bits_of_seed_registers key seq g :
  bits_of_state (seed_registers key seq g) = TriviumRef.init key seq.
Proof.
  rewrite seed_registers_eq. unfold bits_of_state, TriviumRef.init.
  cbn [s11 s12 s21 s22 s31 s32].
  reflexivity.
Qed.

(** C1: for every 64-bit key and sequence number, [k] calls of
    [trivium64_next] from the seeded registers put out the words obtained
    by running bit-serial Trivium for [64 * k] rounds from the canonical
    initial state and packing its output bits, the first bit the most
    significant, into 64-bit words. *)
Theorem trivium64_refines_bit_serial (key seq : Z) (k : nat) (g : state) :
  u64_ok key -> u64_ok seq ->
  keystream k (seed_registers key seq g) =
  TriviumRef.words k (TriviumRef.run (64 * k) (TriviumRef.init key seq)).
Proof.
  intros Hk Hs.
  rewrite keystream_refines by (apply seed_registers_ok; assumption).
  rewrite bits_of_seed_registers. reflexivity.
Qed.

Lemma trivium64_refines_bit_serial_witness :
  u64_ok 0x1112131415161718 /\ u64_ok 0xAAABACADADAFFFCC /\
  keystream 2 (seed_registers 0x1112131415161718 0xAAABACADADAFFFCC
                 (mkState 1 2 3 4 5 6)) =
  TriviumRef.words 2
    (TriviumRef.run (64 * 2)
       (TriviumRef.init 0x1112131415161718 0xAAABACADADAFFFCC)).
Proof.
  assert (H1 : u64_ok 0x1112131415161718) by (unfold u64_ok; lia).
  assert (H2 : u64_ok 0xAAABACADADAFFFCC) by (unfold u64_ok; lia).
  split; [exact H1 | split; [exact H2 |]].
  apply (trivium64_refines_bit_serial _ _ 2 (mkState 1 2 3 4 5 6) H1 H2).
Defined.

(** ** Seeding *)

(** C4, as the code has it: the registers are seeded with the key and 0
    (A), the sequence number and 0 (B), and 0 and the constant
    0x700000000000 (C).  The constant is not zero and its set bits are
    bits 44, 45 and 46, which are the state bits s286, s287 and s288 of
    bit-serial Trivium, the three ones that close its initial state. *)
Theorem seed_registers_spec (seed seq : Z) (g : state) :
  let g' := seed_registers seed seq g in
  s11 g' = seed /\ s12 g' = 0 /\
  s21 g' = seq /\ s22 g' = 0 /\
  s31 g' = 0 /\ s32 g' = 7 * 2 ^ 44 /\ s32 g' <> 0 /\
  (forall j, Z.testbit (s32 g') j = (44 <=? j) && (j <=? 46)) /\
  TriviumRef.rc (bits_of_state g') = repeat false 108 ++ [true; true; true].
Proof.
  cbv zeta. rewrite seed_registers_eq. cbn [s11 s12 s21 s22 s31 s32].
  repeat match goal with |- _ /\ _ => split end;
    try reflexivity; try discriminate.
  intros j. change 0x700000000000 with (Z.shiftl (Z.ones 3) 44).
  destruct (Z.ltb_spec j 0) as [Hn|Hp].
  - rewrite Z.testbit_neg_r by exact Hn. symmetry.
    apply andb_false_iff. left. apply Z.leb_gt. lia.
  - rewrite Z.shiftl_spec by exact Hp.
    rewrite Z.testbit_ones by lia.
    destruct (Z.leb_spec 44 j), (Z.leb_spec j 46),
      (Z.leb_spec 0 (j - 44)), (Z.ltb_spec (j - 44) 3);
      try reflexivity; lia.
Qed.

(** C4, as stated, fails: the three lowest-order bits of the constant are
    clear. *)
Lemma seed_constant_low_bits_clear :
  ~ (forall seed seq g,
       let g' := seed_registers seed seq g in
       s11 g' = seed /\ s12 g' = 0 /\ s21 g' = seq /\ s22 g' = 0 /\
       s31 g' = 0 /\ s32 g' <> 0 /\
       Z.testbit (s32 g') 0 = true /\
       Z.testbit (s32 g') 1 = true /\
       Z.testbit (s32 g') 2 = true).
Proof.
  intros H.
  specialize (H 0 0 (mkState 0 0 0 0 0 0)). cbv zeta in H.
  destruct H as (_ & _ & _ & _ & _ & _ & H0 & _).
  vm_compute in H0. discriminate H0.
Qed.

(** ** Loops and buffers *)

Section WhileFacts.
Context {S : Type}.
Variable cond : S -> bool.
Variable body : S -> outcome S.

Lemma while_done fuel s : cond s = false -> while cond body fuel s = Ok s.
Proof. intros H. destruct fuel; cbn; rewrite H; reflexivity. Qed.

Lemma while_step fuel s s' :
  cond s = true -> body s = Ok s' ->
  while cond body (Datatypes.S fuel) s = while cond body fuel s'.
Proof. intros Hc Hb. cbn. rewrite Hc, Hb. reflexivity. Qed.

Lemma while_undefined fuel s e :
  cond s = true -> body s = Undefined e ->
  while cond body (Datatypes.S fuel) s = Undefined e.
Proof. intros Hc Hb. cbn. rewrite Hc, Hb. reflexivity. Qed.
End WhileFacts.

Lemma length_set_nth n b mem : length (set_nth n b mem) = length mem.
Proof.
  revert n. induction mem as [|a mem IH]; intros [|n]; cbn; auto.
Qed.

Lemma set_nth_app_r pre n b mem :
  set_nth (length pre + n) b (pre ++ mem) = pre ++ set_nth n b mem.
Proof.
  induction pre as [|a pre IH]; cbn; [reflexivity | rewrite IH; reflexivity].
Qed.

Lemma set_nth_app_l n b mem post :
  (n < length mem)%nat -> set_nth n b (mem ++ post) = set_nth n b mem ++ post.
Proof.
  revert n. induction mem as [|a mem IH]; intros n Hn; cbn in *; [lia|].
  destruct n as [|n]; cbn; [reflexivity|]. rewrite IH by lia. reflexivity.
Qed.

Lemma store_mid pre mid post k b :
  0 <= k < Z.of_nat (length mid) ->
  store (pre ++ mid ++ post) (Z.of_nat (length pre) + k) b =
  Ok (pre ++ set_nth (Z.to_nat k) b mid ++ post).
Proof.
  intros Hk. unfold store, in_bounds.
  rewrite !length_app.
  replace (0 <=? Z.of_nat (length pre) + k) with true
    by (symmetry; apply Z.leb_le; lia).
  replace (Z.of_nat (length pre) + k <?
           Z.of_nat (length pre + (length mid + length post))) with true
    by (symmetry; apply Z.ltb_lt; lia).
  cbn [andb]. f_equal.
  replace (Z.to_nat (Z.of_nat (length pre) + k))
    with (length pre + Z.to_nat k)%nat by lia.
  rewrite set_nth_app_r, set_nth_app_l by lia. reflexivity.
Qed.

Lemma byte_of_Z_land u : byte.of_Z (Z.land u 0xff) = byte.of_Z u.
Proof.
  apply byte.unsigned_inj. rewrite !byte.unsigned_of_Z. unfold byte.wrap.
  change 0xff with (Z.ones 8). rewrite Z.land_ones by lia.
  apply Z.mod_mod. lia.
Qed.

Lemma length_eight {A : Type} (l : list A) :
  length l = 8%nat ->
  exists a0 a1 a2 a3 a4 a5 a6 a7, l = [a0; a1; a2; a3; a4; a5; a6; a7].
Proof.
  intros H.
  do 8 (destruct l as [|? l]; [discriminate H|]).
  destruct l; [|discriminate H].
  repeat eexists.
Qed.

(** [uint64_to_bytes(u, &mem[p])] replaces the eight bytes at [p] by the
    bytes of [u], the most significant first. *)
Lemma uint64_to_bytes_spec u pre mid post :
  length mid = 8%nat ->
  uint64_to_bytes u (pre ++ mid ++ post) (Z.of_nat (length pre)) =
  Ok (pre ++ be_bytes u ++ post).
Proof.
  intros Hmid.
  destruct (length_eight mid Hmid) as (m0 & m1 & m2 & m3 & m4 & m5 & m6 & m7 & ->).
  unfold uint64_to_bytes.
  change (Z.to_nat sizeof_u64) with 8%nat.
  do 8 (erewrite while_step;
        [ | reflexivity
          | unfold u2b_body;
            rewrite store_mid by (unfold sizeof_u64; cbn; lia);
            unfold sizeof_u64; cbn;
            cbv [Pos.to_nat Pos.iter_op Nat.add]; cbn [set_nth];
            reflexivity ]).
  rewrite while_done by reflexivity. cbn [bind].
  unfold be_bytes. cbn [map seq Z.of_nat Pos.of_succ_nat Pos.succ].
  rewrite !byte_of_Z_land. unfold shr64.
  rewrite !Z.shiftr_shiftr by lia.
  reflexivity.
Qed.

(** ** The word codec *)

(** The word [bytes_to_uint64] reads from eight bytes. *)
Lemma bytes_to_uint64_eight b0 b1 b2 b3 b4 b5 b6 b7 rest :
  bytes_to_uint64 (b0 :: b1 :: b2 :: b3 :: b4 :: b5 :: b6 :: b7 :: rest) =
  Ok (Z.lor (Z.lor (Z.lor (Z.lor (Z.lor (Z.lor (Z.lor
        (byte.unsigned b7)
        (shl64 (byte.unsigned b0) 56))
        (shl64 (byte.unsigned b1) 48))
        (shl64 (byte.unsigned b2) 40))
        (shl64 (byte.unsigned b3) 32))
        (shl64 (byte.unsigned b4) 24))
        (shl64 (byte.unsigned b5) 16))
        (shl64 (byte.unsigned b6) 8)).
Proof.
  unfold bytes_to_uint64.
  assert (Hload : forall i : nat, (i < 8)%nat ->
            load (b0 :: b1 :: b2 :: b3 :: b4 :: b5 :: b6 :: b7 :: rest)
              (Z.of_nat i) =
            Ok (nth i [b0; b1; b2; b3; b4; b5; b6; b7] Byte.x00)).
  { intros i Hi. unfold load, in_bounds.
    replace (0 <=? Z.of_nat i) with true by (symmetry; apply Z.leb_le; lia).
    replace (Z.of_nat i <? _) with true
      by (symmetry; apply Z.ltb_lt; cbn [length]; lia).
    cbn [andb]. rewrite Nat2Z.id.
    do 8 (destruct i as [|i]; [reflexivity|]). lia. }
  change (sizeof_ptr - 1) with (Z.of_nat 7).
  rewrite Hload by lia. cbn [bind nth].
  change (Z.to_nat (Z.of_nat 7)) with 7%nat.
  change (0, byte.unsigned b7) with (Z.of_nat 0, byte.unsigned b7).
  do 7 (erewrite while_step;
        [ | reflexivity
          | unfold b2u_body; rewrite Hload by lia; cbn [bind nth];
            match goal with
            | |- Ok (Z.of_nat ?i + 1, _) = _ =>
                change (Z.of_nat i + 1) with (Z.of_nat (S i))
            end;
            reflexivity ]).
  rewrite while_done by reflexivity. cbn [bind].
  reflexivity.
Qed.

Lemma be_bytes_eq w :
  be_bytes w =
  [byte.of_Z (shr64 w 56); byte.of_Z (shr64 w 48); byte.of_Z (shr64 w 40);
   byte.of_Z (shr64 w 32); byte.of_Z (shr64 w 24); byte.of_Z (shr64 w 16);
   byte.of_Z (shr64 w 8); byte.of_Z (shr64 w 0)].
Proof. reflexivity. Qed.

Lemma length_be_bytes w : length (be_bytes w) = 8%nat.
Proof. reflexivity. Qed.

Ltac decide_ltb :=
  repeat match goal with
  | |- context [?a <? ?b] =>
      first [ replace (a <? b) with true by (symmetry; apply Z.ltb_lt; lia)
            | replace (a <? b) with false by (symmetry; apply Z.ltb_ge; lia) ]
  end;
  cbn [andb orb negb].

Lemma byte_high_bits b j : 8 <= j -> Z.testbit (byte.unsigned b) j = false.
Proof.
  intros Hj. pose proof (byte.unsigned_range b) as Hb.
  rewrite <- (Z.mod_small _ _ Hb). apply Z.mod_pow2_bits_high. lia.
Qed.

Ltac byte_bits j :=
  repeat match goal with
  | |- context [Z.testbit (byte.unsigned ?b) ?e] =>
      lazymatch e with
      | j => fail
      | _ => first [ rewrite (Z.testbit_neg_r (byte.unsigned b) e) by lia
                   | rewrite (byte_high_bits b e) by lia
                   | replace e with j by lia ]
      end
  end;
  cbn [andb orb negb].

Lemma bytes_to_uint64_be_bytes w rest :
  u64_ok w -> bytes_to_uint64 (be_bytes w ++ rest) = Ok w.
Proof.
  intros Hw. rewrite be_bytes_eq. cbn [app].
  rewrite bytes_to_uint64_eight. f_equal.
  rewrite !byte.unsigned_of_Z. unfold byte.wrap, shl64, wrap64, shr64.
  apply Z.bits_inj'. intros j Hj.
  rewrite !Z.lor_spec.
  repeat rewrite Z.testbit_mod_pow2 by lia.
  rewrite !Z.shiftl_spec by lia.
  repeat rewrite Z.testbit_mod_pow2 by lia.
  rewrite !Z.shiftr_spec'.
  assert (j < 8 \/ 8 <= j < 16 \/ 16 <= j < 24 \/ 24 <= j < 32 \/
          32 <= j < 40 \/ 40 <= j < 48 \/ 48 <= j < 56 \/ 56 <= j < 64 \/
          64 <= j) as Hcase by lia.
  repeat destruct Hcase as [Hcase|Hcase]; decide_ltb;
    rewrite ?andb_false_r, ?orb_false_r; cbn [orb];
    try (f_equal; lia).
  symmetry. apply u64_ok_high_bits; assumption.
Qed.

Lemma lor_ok x y : u64_ok x -> u64_ok y -> u64_ok (Z.lor x y).
Proof.
  intros Hx Hy. apply u64_ok_of_bits.
  - apply Z.lor_nonneg. unfold u64_ok in *. lia.
  - intros j Hj. rewrite Z.lor_spec.
    rewrite (u64_ok_high_bits x j Hx Hj), (u64_ok_high_bits y j Hy Hj).
    reflexivity.
Qed.

Lemma byte_unsigned_ok b : u64_ok (byte.unsigned b).
Proof. pose proof (byte.unsigned_range b). unfold u64_ok. lia. Qed.

(** Eight bytes or more decode to a 64-bit word whose bytes they are. *)
Lemma bytes_to_uint64_total b :
  (8 <= length b)%nat ->
  exists w, bytes_to_uint64 b = Ok w /\ u64_ok w /\ be_bytes w = firstn 8 b.
Proof.
  intros Hlen.
  do 8 (destruct b as [|? b]; [cbn in Hlen; lia|]).
  rewrite bytes_to_uint64_eight. eexists. split; [reflexivity|]. split.
  - repeat apply lor_ok; try apply shl64_ok. apply byte_unsigned_ok.
  - rewrite be_bytes_eq. cbn [firstn].
    repeat (f_equal; [|]); [..|f_equal];
      apply byte.unsigned_inj; rewrite byte.unsigned_of_Z;
      unfold byte.wrap, shl64, wrap64, shr64;
      apply Z.bits_inj'; intros j Hj;
      rewrite Z.testbit_mod_pow2 by lia;
      rewrite Z.shiftr_spec by lia;
      rewrite !Z.lor_spec;
      repeat rewrite Z.testbit_mod_pow2 by lia;
      rewrite !Z.shiftl_spec by lia;
      (destruct (Z.ltb_spec j 8) as [Hlt|Hge]; cbn [andb];
       [ decide_ltb; byte_bits j; rewrite ?orb_false_r; reflexivity
       | symmetry; apply byte_high_bits; exact Hge ]).
Qed.

Lemma bytes_to_uint64_short b :
  (length b < 8)%nat -> bytes_to_uint64 b = Undefined OutOfBounds.
Proof.
  intros Hlen. unfold bytes_to_uint64, load, in_bounds.
  replace (sizeof_ptr - 1 <? Z.of_nat (length b)) with false
    by (symmetry; apply Z.ltb_ge; unfold sizeof_ptr; lia).
  rewrite andb_false_r. reflexivity.
Qed.

(** C7: the codec is a bijection between 64-bit words and 8-byte buffers.
    Encoding a word into an 8-byte buffer (whatever it held) and decoding
    the buffer gives the word back; decoding an 8-byte buffer gives a
    64-bit word, and encoding that word gives the buffer back. *)
Theorem codec_round_trip :
  (forall w mem, u64_ok w -> length mem = 8%nat ->
     exists b, uint64_to_bytes w mem 0 = Ok b /\ length b = 8%nat /\
               bytes_to_uint64 b = Ok w) /\
  (forall b mem, length b = 8%nat -> length mem = 8%nat ->
     exists w, bytes_to_uint64 b = Ok w /\ u64_ok w /\
               uint64_to_bytes w mem 0 = Ok b).
Proof.
  split.
  - intros w mem Hw Hmem. exists (be_bytes w).
    pose proof (uint64_to_bytes_spec w [] mem [] Hmem) as H.
    rewrite app_nil_r in H. cbn [app length Z.of_nat] in H.
    rewrite app_nil_r in H.
    split; [exact H|]. split; [reflexivity|].
    rewrite <- (app_nil_r (be_bytes w)).
    apply bytes_to_uint64_be_bytes, Hw.
  - intros b mem Hb Hmem.
    destruct (bytes_to_uint64_total b) as (w & Hdec & Hw & Hbytes); [lia|].
    exists w. split; [exact Hdec|]. split; [exact Hw|].
    pose proof (uint64_to_bytes_spec w [] mem [] Hmem) as H.
    rewrite app_nil_r in H. cbn [app length Z.of_nat] in H.
    rewrite app_nil_r in H.
    rewrite H, Hbytes. f_equal. apply firstn_all2. lia.
Qed.

Lemma codec_round_trip_witness :
  (exists b, uint64_to_bytes 0x1112131415161718 (repeat Byte.x00 8) 0 = Ok b /\
             length b = 8%nat /\ bytes_to_uint64 b = Ok 0x1112131415161718) /\
  (exists w, bytes_to_uint64 (be_bytes 0xAAABACADADAFFFCC) = Ok w /\ u64_ok w /\
             uint64_to_bytes w (repeat Byte.xff 8) 0 =
             Ok (be_bytes 0xAAABACADADAFFFCC)).
Proof.
  split.
  - apply (proj1 codec_round_trip); [unfold u64_ok; lia | reflexivity].
  - apply (proj2 codec_round_trip); reflexivity.
Defined.

(** ** Seeding: the blank rounds *)

Lemma steps_succ k g : steps (S k) g = steps k (next_state g).
Proof. unfold steps. apply Nat.iter_succ_r. Qed.

Lemma steps_add a b g : steps (a + b) g = steps b (steps a g).
Proof.
  revert g. induction a as [|a IH]; intros g; [reflexivity|].
  cbn [Nat.add]. rewrite !steps_succ. apply IH.
Qed.

Lemma int_add_ok a b :
  INT_MIN <= a + b <= INT_MAX -> int_add a b = Ok (a + b).
Proof.
  intros H. unfold int_add.
  replace (INT_MIN <=? a + b) with true by (symmetry; apply Z.leb_le; lia).
  replace (a + b <=? INT_MAX) with true by (symmetry; apply Z.leb_le; lia).
  reflexivity.
Qed.

Lemma int_add_overflow a b :
  INT_MAX < a + b -> int_add a b = Undefined SignedOverflow.
Proof.
  intros H. unfold int_add.
  replace (a + b <=? INT_MAX) with false by (symmetry; apply Z.leb_gt; lia).
  rewrite andb_false_r. reflexivity.
Qed.

Lemma size_of_int_small i : 0 <= i <= INT_MAX -> size_of_int i = i.
Proof.
  intros H. unfold size_of_int, wrap_size. apply Z.mod_small.
  unfold INT_MAX in H. lia.
Qed.

Lemma blank_loop (m : nat) : forall fuel i g,
  0 <= i -> i + Z.of_nat m <= 18 ->
  while blank_cond blank_body (m + fuel) (i, g) =
  while blank_cond blank_body fuel (i + Z.of_nat m, steps m g).
Proof.
  induction m as [|m IH]; intros fuel i g Hi Hm.
  - cbn [Nat.add steps Nat.iter]. rewrite Z.add_0_r. reflexivity.
  - cbn [Nat.add].
    rewrite (while_step _ _ _ _ (i + 1, next_state g)).
    + rewrite IH by lia. rewrite steps_succ. do 2 f_equal. lia.
    + unfold blank_cond. cbn [fst]. apply Z.ltb_lt. lia.
    + unfold blank_body, next_state.
      destruct (trivium64_next g) as [z g']. cbn [snd].
      rewrite int_add_ok by (unfold INT_MIN, INT_MAX; lia). reflexivity.
Qed.

Lemma blank_rounds_eq g : blank_rounds g = Ok (steps 18 g).
Proof.
  unfold blank_rounds. change (Z.to_nat 18) with (18 + 0)%nat.
  rewrite (blank_loop 18) by lia.
  rewrite while_done by reflexivity. reflexivity.
Qed.

Lemma trivium64_setseed_eq seed seq g :
  trivium64_setseed seed seq g = Ok (seeded seed seq).
Proof.
  unfold trivium64_setseed. rewrite seed_registers_eq. apply blank_rounds_eq.
Qed.

(** ** The stream driver *)

Lemma keystream_length k g : length (keystream k g) = k.
Proof.
  revert g. induction k as [|k IH]; intros g; cbn [keystream]; [reflexivity|].
  destruct (trivium64_next g) as [z g']. cbn [length]. rewrite IH. reflexivity.
Qed.

Lemma stream_bytes_succ k g :
  stream_bytes (S k) g =
  be_bytes (fst (trivium64_next g)) ++ stream_bytes k (next_state g).
Proof.
  unfold stream_bytes, next_state. cbn [keystream].
  destruct (trivium64_next g) as [z g']. reflexivity.
Qed.

Lemma stream_bytes_length k g : length (stream_bytes k g) = (8 * k)%nat.
Proof.
  revert g. induction k as [|k IH]; intros g; [reflexivity|].
  rewrite stream_bytes_succ, length_app, IH, length_be_bytes. lia.
Qed.

Lemma stream_bytes_add a b g :
  stream_bytes (a + b) g = stream_bytes a g ++ stream_bytes b (steps a g).
Proof.
  revert g. induction a as [|a IH]; intros g; [reflexivity|].
  cbn [Nat.add]. rewrite !stream_bytes_succ, steps_succ, IH, app_assoc.
  reflexivity.
Qed.

Lemma firstn_length_split {A : Type} (l : list A) (n : nat) :
  (n <= length l)%nat ->
  exists l1 l2, l = l1 ++ l2 /\ length l1 = n.
Proof.
  intros H. exists (firstn n l), (skipn n l). split.
  - symmetry. apply firstn_skipn.
  - apply firstn_length_le, H.
Qed.

(** [k] iterations of the full-word loop over a buffer [pre ++ mid ++ post]
    whose part [mid] is the [8 * k] bytes from the counter on. *)
Lemma full_loop (k : nat) : forall fuel bound g pre mid post,
  length mid = (8 * k)%nat ->
  Z.of_nat (length pre) + 8 * Z.of_nat k <= INT_MAX ->
  Z.of_nat (length pre) + 8 * Z.of_nat k <= bound ->
  while (full_cond bound) full_body (k + fuel)
    (Z.of_nat (length pre), g, pre ++ mid ++ post) =
  while (full_cond bound) full_body fuel
    (Z.of_nat (length pre) + 8 * Z.of_nat k, steps k g,
     pre ++ stream_bytes k g ++ post).
Proof.
  induction k as [|k IH]; intros fuel bound g pre mid post Hmid Hmax Hbound.
  - destruct mid; [|discriminate Hmid].
    cbn [Nat.add steps Nat.iter stream_bytes keystream flat_map app].
    rewrite Z.add_0_r. reflexivity.
  - destruct (firstn_length_split mid 8) as (m8 & mid' & -> & Hm8); [lia|].
    rewrite length_app in Hmid.
    cbn [Nat.add].
    rewrite (while_step _ _ _ _
               (Z.of_nat (length (pre ++ be_bytes (fst (trivium64_next g)))),
                next_state g,
                (pre ++ be_bytes (fst (trivium64_next g))) ++ mid' ++ post)).
    + rewrite IH; rewrite ?length_app, ?length_be_bytes; try lia.
      rewrite stream_bytes_succ, steps_succ, <- !app_assoc.
      do 3 f_equal. lia.
    + unfold full_cond. rewrite size_of_int_small by lia.
      apply Z.ltb_lt. lia.
    + unfold full_body, next_state.
      destruct (trivium64_next g) as [z g']. cbn [fst snd].
      rewrite <- (app_assoc m8 mid' post).
      rewrite uint64_to_bytes_spec by exact Hm8. cbn [bind].
      rewrite int_add_ok by (unfold INT_MIN; lia). cbn [bind].
      rewrite length_app, length_be_bytes, <- !app_assoc.
      do 3 f_equal. lia.
Qed.

Lemma wrap_size_small x : 0 <= x < 2 ^ 64 -> wrap_size x = x.
Proof. intros H. unfold wrap_size. apply Z.mod_small, H. Qed.

(** [m] iterations of the tail loop, which has written [done] after the
    full words [full] and goes on to overwrite [todo]. *)
Lemma tail_loop (m : nat) : forall fuel n r z (i : nat) full done todo post,
  Z.of_nat (length full) = n - r -> n < 2 ^ 64 -> 0 <= r ->
  length done = i -> length todo = m -> Z.of_nat (i + m) <= r <= INT_MAX ->
  while (tail_cond r) (tail_body n r z) (m + fuel)
    (Z.of_nat i, full ++ done ++ todo ++ post) =
  while (tail_cond r) (tail_body n r z) fuel
    (Z.of_nat (i + m),
     full ++ (done ++ map (fun j => byte.of_Z (Z.land (shr64 z (7 - Z.of_nat j)) 0xff))
                        (seq i m)) ++ post).
Proof.
  induction m as [|m IH];
    intros fuel n r z i full done todo post Hfull Hn Hr Hdone Htodo Him.
  - destruct todo; [|discriminate Htodo].
    cbn [Nat.add seq map app]. rewrite Nat.add_0_r, app_nil_r. reflexivity.
  - destruct todo as [|t todo]; [discriminate Htodo|].
    cbn [Nat.add].
    rewrite (while_step _ _ _ _
      (Z.of_nat (S i),
       full ++ (done ++ [byte.of_Z (Z.land (shr64 z (7 - Z.of_nat i)) 0xff)])
            ++ todo ++ post)).
    + rewrite IH; try assumption; try lia.
      * replace (S i + m)%nat with (i + S m)%nat by lia.
        cbn [seq map]. rewrite <- !app_assoc. reflexivity.
      * rewrite length_app. cbn [length]. lia.
      * cbn [length] in Htodo. lia.
    + unfold tail_cond. cbn [fst].
      rewrite size_of_int_small by lia. apply Z.ltb_lt. lia.
    + unfold tail_body.
      replace (wrap_size (wrap_size (n - r) + size_of_int (Z.of_nat i)))
        with (Z.of_nat (length (full ++ done)) + 0).
      2:{ rewrite (size_of_int_small (Z.of_nat i)) by lia.
          rewrite (wrap_size_small (n - r)) by lia.
          rewrite wrap_size_small by (unfold INT_MAX in *; lia).
          rewrite length_app. lia. }
      change (t :: todo) with ([t] ++ todo).
      rewrite (app_assoc full done), <- (app_assoc [t] todo post).
      rewrite store_mid by (cbn [length]; lia). cbn [bind set_nth Z.to_nat].
      rewrite int_add_ok by (unfold INT_MIN; lia). cbn [bind].
      rewrite <- !app_assoc. cbn [app].
      do 2 f_equal. lia.
Qed.

Lemma steps_for_full n :
  0 <= n -> n mod 8 = 0 -> steps_for n = Z.to_nat (n / 8).
Proof.
  intros Hn Hr. unfold steps_for. f_equal.
  Z.div_mod_to_equations. lia.
Qed.

Lemma steps_for_partial n :
  0 <= n -> n mod 8 <> 0 -> steps_for n = (Z.to_nat (n / 8) + 1)%nat.
Proof.
  intros Hn Hr. unfold steps_for.
  replace ((n + 7) / 8) with (n / 8 + 1); [|Z.div_mod_to_equations; lia].
  assert (0 <= n / 8) by (apply Z.div_pos; lia). lia.
Qed.

(** A request that the [int] counter can serve: [trivium_api] returns, the
    registers are [steps_for n] steps past the seeded ones and the first
    [n] bytes of the buffer are the stream; the rest is as it was. *)
Lemma trivium_api_in_range g key iv n ks kw iw :
  bytes_to_uint64 key = Ok kw -> bytes_to_uint64 iv = Ok iw ->
  0 <= n <= INT_MAX -> n <= Z.of_nat (length ks) ->
  trivium_api g key iv n ks =
  Ok (steps (steps_for n) (seeded kw iw),
      stream_out (seeded kw iw) n ++ skipn (Z.to_nat n) ks).
Proof.
  intros Hkey Hiv Hn Hks.
  unfold trivium_api. rewrite Hkey, Hiv. cbn [bind].
  rewrite trivium64_setseed_eq. cbn [bind].
  set (gs := seeded kw iw).
  pose proof (Z.mod_pos_bound n 8 ltac:(lia)) as Hr.
  pose proof (Z.div_mod n 8 ltac:(lia)) as Hdm.
  set (r := n mod 8) in *. set (k := Z.to_nat (n / 8)).
  assert (Hk : 8 * Z.of_nat k = n - r) by (subst k; lia).
  assert (Hmax : n < 2 ^ 64) by (unfold INT_MAX in Hn; lia).
  rewrite (wrap_size_small (n - r)) by lia.
  destruct (firstn_length_split ks (8 * k)) as (mid & rest & -> & Hmid); [lia|].
  replace (Z.to_nat (n - r)) with (k + 7 * k)%nat by lia.
  change (0, gs, mid ++ rest)
    with (Z.of_nat (length (@nil byte)), gs, [] ++ mid ++ rest).
  rewrite (full_loop k) by (cbn [length]; lia).
  rewrite while_done
    by (unfold full_cond; rewrite size_of_int_small by (cbn [length]; lia);
        apply Z.ltb_ge; cbn [length]; lia).
  cbn [bind app].
  unfold stream_out. fold r. change (Z.to_nat (n / 8)) with k.
  rewrite length_app in Hks.
  destruct (Z.eqb_spec r 0) as [Hr0|Hr0]; cbn [negb].
  - rewrite Hr0. cbn [Z.to_nat tail_bytes seq map]. rewrite app_nil_r.
    f_equal. f_equal.
    + rewrite steps_for_full by (assumption || lia). reflexivity.
    + f_equal. replace (Z.to_nat n) with (length mid + 0)%nat by lia.
      rewrite skipn_app, skipn_all2 by lia.
      replace (length mid + 0 - length mid)%nat with 0%nat by lia.
      reflexivity.
  - destruct (trivium64_next (steps k gs)) as [z g'] eqn:Enext.
    destruct (firstn_length_split rest (Z.to_nat r)) as (todo & post & -> & Htodo);
      [lia|].
    replace (Z.to_nat r) with (Z.to_nat r + 0)%nat at 1 by lia.
    change (0, stream_bytes k gs ++ todo ++ post)
      with (Z.of_nat 0, stream_bytes k gs ++ [] ++ todo ++ post).
    rewrite (tail_loop (Z.to_nat r)); try assumption; try reflexivity;
      [ | rewrite stream_bytes_length; lia | lia | unfold INT_MAX; lia ].
    rewrite while_done
      by (unfold tail_cond; cbn [fst];
          rewrite size_of_int_small by (unfold INT_MAX; lia);
          apply Z.ltb_ge; lia).
    cbn [bind app fst Nat.add].
    f_equal. f_equal.
    + rewrite steps_for_partial by (assumption || lia). fold k.
      rewrite steps_add. change (steps 1 (steps k gs))
        with (snd (trivium64_next (steps k gs))).
      rewrite Enext. reflexivity.
    + unfold tail_bytes. rewrite <- app_assoc. do 2 f_equal.
      replace (Z.to_nat n) with (length mid + length todo)%nat by lia.
      rewrite skipn_app, skipn_all2 by lia.
      replace (length mid + length todo - length mid)%nat
        with (length todo + 0)%nat by lia.
      rewrite skipn_app, skipn_all2 by lia.
      replace (length todo + 0 - length todo)%nat with 0%nat by lia.
      reflexivity.
Qed.

(** A request of 2^31 bytes or more: the [int] counter of the full-word
    loop, stepping by 8, is incremented past [INT_MAX]. *)
Lemma trivium_api_overflow g key iv n ks kw iw :
  bytes_to_uint64 key = Ok kw -> bytes_to_uint64 iv = Ok iw ->
  INT_MAX < n < 2 ^ 64 -> n <= Z.of_nat (length ks) ->
  trivium_api g key iv n ks = Undefined SignedOverflow.
Proof.
  intros Hkey Hiv Hn Hks.
  unfold trivium_api. rewrite Hkey, Hiv. cbn [bind].
  rewrite trivium64_setseed_eq. cbn [bind].
  set (gs := seeded kw iw).
  pose proof (Z.mod_pos_bound n 8 ltac:(lia)) as Hr.
  assert (Hbound : 2 ^ 31 <= n - n mod 8)
    by (unfold INT_MAX in Hn; Z.div_mod_to_equations; lia).
  set (r := n mod 8) in *.
  rewrite (wrap_size_small (n - r)) by lia.
  assert (exists k : nat, Z.of_nat k = 2 ^ 28 - 1) as [k Hk]
    by (exists (Z.to_nat (2 ^ 28 - 1)); lia).
  destruct (firstn_length_split ks (8 * k)) as (mid & rest & -> & Hmid); [lia|].
  rewrite length_app in Hks.
  destruct (firstn_length_split rest 8) as (m8 & post & -> & Hm8); [lia|].
  assert (exists fuel, Z.to_nat (n - r) = (k + S fuel)%nat) as [fuel ->]
    by (exists (Z.to_nat (n - r) - k - 1)%nat; lia).
  change (0, gs, mid ++ m8 ++ post)
    with (Z.of_nat (length (@nil byte)), gs, [] ++ mid ++ m8 ++ post).
  rewrite (full_loop k) by (unfold INT_MAX; cbn [length]; lia).
  cbn [length app].
  rewrite (while_undefined _ _ _ _ SignedOverflow); [reflexivity| |].
  - unfold full_cond.
    rewrite size_of_int_small by (unfold INT_MAX; lia).
    apply Z.ltb_lt. lia.
  - unfold full_body.
    destruct (trivium64_next (steps k gs)) as [z g'].
    replace (Z.of_nat 0 + 8 * Z.of_nat k)
      with (Z.of_nat (length (stream_bytes k gs)))
      by (rewrite stream_bytes_length; lia).
    rewrite uint64_to_bytes_spec by exact Hm8. cbn [bind].
    rewrite int_add_overflow
      by (rewrite stream_bytes_length; unfold INT_MAX; lia).
    reflexivity.
Qed.

Lemma stream_out_length g n :
  0 <= n -> length (stream_out g n) = Z.to_nat n.
Proof.
  intros Hn. unfold stream_out. cbv zeta.
  rewrite length_app, stream_bytes_length.
  unfold tail_bytes. rewrite length_map, length_seq.
  pose proof (Z.div_mod n 8 ltac:(lia)).
  pose proof (Z.mod_pos_bound n 8 ltac:(lia)).
  assert (0 <= n / 8) by (apply Z.div_pos; lia). lia.
Qed.

(** Whenever [trivium_api] returns, the key and the sequence number were
    decoded, the request was within reach of the [int] counter, and the
    registers and the buffer are those of [trivium_api_in_range]. *)
Lemma trivium_api_inv g key iv n ks g' out :
  0 <= n < 2 ^ 64 -> n <= Z.of_nat (length ks) ->
  trivium_api g key iv n ks = Ok (g', out) ->
  exists kw iw,
    bytes_to_uint64 key = Ok kw /\ bytes_to_uint64 iv = Ok iw /\
    n <= INT_MAX /\
    g' = steps (steps_for n) (seeded kw iw) /\
    out = stream_out (seeded kw iw) n ++ skipn (Z.to_nat n) ks.
Proof.
  intros Hn Hks H.
  destruct (bytes_to_uint64 key) as [kw| |] eqn:Hkey;
    [ | unfold trivium_api in H; rewrite Hkey in H; discriminate H .. ].
  destruct (bytes_to_uint64 iv) as [iw| |] eqn:Hiv;
    [ | unfold trivium_api in H; rewrite Hkey, Hiv in H; discriminate H .. ].
  exists kw, iw.
  destruct (Z_le_gt_dec n INT_MAX) as [Hle|Hgt].
  - rewrite (trivium_api_in_range g key iv n ks kw iw) in H
      by (assumption || lia).
    injection H as <- <-. repeat split; assumption || reflexivity.
  - rewrite (trivium_api_overflow g key iv n ks kw iw) in H
      by (assumption || lia).
    discriminate H.
Qed.

Lemma generate_inv g key iv n ks out :
  generate g key iv n ks = Ok out ->
  exists g', trivium_api g key iv n ks = Ok (g', out).
Proof.
  unfold generate. intros H.
  destruct (trivium_api g key iv n ks) as [[g' ks']| |]; try discriminate H.
  cbn in H. injection H as ->. exists g'. reflexivity.
Qed.

(** C6: seeding sets the registers and then takes exactly 18 steps whose
    outputs it drops, 18 * 64 = 1152 bits of warm-up; the state it leaves is
    a function of the key and the sequence number alone, and whenever
    [trivium_api] returns from a request of [n] bytes the registers are
    [steps_for n] steps away from that same state, whatever [n] is. *)
Theorem setseed_warm_up (seed seq : Z) (g : state) :
  trivium64_setseed seed seq g =
    Ok (Nat.iter 18 next_state (seed_registers seed seq g)) /\
  18 * 64 = 1152 /\
  (forall key iv n ks g' out,
     bytes_to_uint64 key = Ok seed -> bytes_to_uint64 iv = Ok seq ->
     0 <= n < 2 ^ 64 -> n <= Z.of_nat (length ks) ->
     trivium_api g key iv n ks = Ok (g', out) ->
     g' = Nat.iter (steps_for n) next_state
            (Nat.iter 18 next_state (seed_registers seed seq g)) /\
     firstn (Z.to_nat n) out =
       stream_out (Nat.iter 18 next_state (seed_registers seed seq g)) n).
Proof.
  split; [apply trivium64_setseed_eq|]. split; [reflexivity|].
  intros key iv n ks g' out Hkey Hiv Hn Hks H.
  destruct (trivium_api_inv g key iv n ks g' out Hn Hks H)
    as (kw & iw & Hkw & Hiw & Hmax & -> & ->).
  rewrite Hkey in Hkw. injection Hkw as <-.
  rewrite Hiv in Hiw. injection Hiw as <-.
  split; [reflexivity|].
  pose proof (stream_out_length (seeded seed seq) n ltac:(lia)) as Hlen.
  rewrite firstn_app, Hlen, Nat.sub_diag, firstn_all2 by lia.
  cbn [firstn]. rewrite app_nil_r. reflexivity.
Qed.

Lemma setseed_warm_up_witness :
  exists g' out,
    trivium_api (mkState 1 2 3 4 5 6) (be_bytes 0x1112131415161718)
      (be_bytes 0xAAABACADADAFFFCC) 9 (repeat Byte.x00 9) = Ok (g', out) /\
    g' = Nat.iter (steps_for 9) next_state
           (Nat.iter 18 next_state
              (seed_registers 0x1112131415161718 0xAAABACADADAFFFCC
                 (mkState 1 2 3 4 5 6))) /\
    firstn (Z.to_nat 9) out =
      stream_out
        (Nat.iter 18 next_state
           (seed_registers 0x1112131415161718 0xAAABACADADAFFFCC
              (mkState 1 2 3 4 5 6))) 9.
Proof.
  eexists. eexists. split.
  - vm_compute. reflexivity.
  - apply (proj2 (proj2 (setseed_warm_up 0x1112131415161718
                           0xAAABACADADAFFFCC (mkState 1 2 3 4 5 6)))
             (be_bytes 0x1112131415161718) (be_bytes 0xAAABACADADAFFFCC)
             9 (repeat Byte.x00 9)).
    + vm_compute. reflexivity.
    + vm_compute. reflexivity.
    + lia.
    + cbn. lia.
    + vm_compute. reflexivity.
Defined.

(** With keys of eight bytes or more and a buffer large enough, every
    request of at most [INT_MAX] bytes returns. *)
Lemma generate_total g key iv n ks :
  (8 <= length key)%nat -> (8 <= length iv)%nat ->
  0 <= n <= INT_MAX -> n <= Z.of_nat (length ks) ->
  exists out, generate g key iv n ks = Ok out /\ length out = length ks.
Proof.
  intros Hkey Hiv Hn Hks.
  destruct (bytes_to_uint64_total key Hkey) as (kw & Hkw & _ & _).
  destruct (bytes_to_uint64_total iv Hiv) as (iw & Hiw & _ & _).
  unfold generate.
  rewrite (trivium_api_in_range g key iv n ks kw iw) by assumption.
  cbn [bind]. eexists. split; [reflexivity|].
  rewrite length_app, stream_out_length, length_skipn by lia. lia.
Qed.

(** C8: two calls with the same key, sequence number and length end in the
    same way, and when they return they leave the same registers and the
    same bytes, whatever the six registers and the output buffer held
    before each call. *)
Theorem trivium_api_deterministic (g1 g2 : state) (key iv : list byte)
    (n : Z) (ks1 ks2 : list byte) :
  n < 2 ^ 64 ->
  Z.of_nat (length ks1) = n -> Z.of_nat (length ks2) = n ->
  trivium_api g1 key iv n ks1 = trivium_api g2 key iv n ks2 /\
  generate g1 key iv n ks1 = generate g2 key iv n ks2.
Proof.
  intros Hn H1 H2.
  assert (Heq : trivium_api g1 key iv n ks1 = trivium_api g2 key iv n ks2).
  { destruct (bytes_to_uint64 key) as [kw| |] eqn:Hkey;
      [ | unfold trivium_api; rewrite Hkey; reflexivity .. ].
    destruct (bytes_to_uint64 iv) as [iw| |] eqn:Hiv;
      [ | unfold trivium_api; rewrite Hkey, Hiv; reflexivity .. ].
    destruct (Z_le_gt_dec n INT_MAX) as [Hle|Hgt].
    - rewrite (trivium_api_in_range g1 key iv n ks1 kw iw),
        (trivium_api_in_range g2 key iv n ks2 kw iw) by (assumption || lia).
      rewrite !skipn_all2 by lia. reflexivity.
    - rewrite (trivium_api_overflow g1 key iv n ks1 kw iw),
        (trivium_api_overflow g2 key iv n ks2 kw iw) by (assumption || lia).
      reflexivity. }
  split; [exact Heq|]. unfold generate. rewrite Heq. reflexivity.
Qed.

Lemma trivium_api_deterministic_witness :
  trivium_api (mkState 1 2 3 4 5 6) (be_bytes 0x1112131415161718)
    (be_bytes 0xAAABACADADAFFFCC) 13 (repeat Byte.x00 13) =
  trivium_api (mkState 0 0 0 0 0 0) (be_bytes 0x1112131415161718)
    (be_bytes 0xAAABACADADAFFFCC) 13 (repeat Byte.xff 13) /\
  generate (mkState 1 2 3 4 5 6) (be_bytes 0x1112131415161718)
    (be_bytes 0xAAABACADADAFFFCC) 13 (repeat Byte.x00 13) =
  generate (mkState 0 0 0 0 0 0) (be_bytes 0x1112131415161718)
    (be_bytes 0xAAABACADADAFFFCC) 13 (repeat Byte.xff 13).
Proof.
  apply trivium_api_deterministic; [lia | reflexivity | reflexivity].
Defined.

(** C9: for [n] a multiple of 8 and [m >= 0], the buffer a request of [n]
    bytes returns is the first [n] bytes of the buffer a request of
    [n + m] bytes returns for the same key and sequence number, whatever
    the registers and the buffers held before ([generate_total] gives the
    requests that return). *)
Theorem generate_prefix (g g' : state) (key iv : list byte) (n m : Z)
    (ks ks' out out' : list byte) :
  n mod 8 = 0 -> 0 <= m -> n + m < 2 ^ 64 ->
  Z.of_nat (length ks) = n -> Z.of_nat (length ks') = n + m ->
  generate g key iv n ks = Ok out ->
  generate g' key iv (n + m) ks' = Ok out' ->
  out = firstn (Z.to_nat n) out'.
Proof.
  intros Hmod Hm Hmax Hks Hks' Hout Hout'.
  apply generate_inv in Hout as [gf Hout].
  apply generate_inv in Hout' as [gf' Hout'].
  apply trivium_api_inv in Hout as (kw & iw & Hkw & Hiw & _ & _ & ->);
    [ | lia | lia ].
  apply trivium_api_inv in Hout' as (kw' & iw' & Hkw' & Hiw' & _ & _ & ->);
    [ | lia | lia ].
  rewrite Hkw in Hkw'. injection Hkw' as <-.
  rewrite Hiw in Hiw'. injection Hiw' as <-.
  rewrite !skipn_all2, !app_nil_r by lia.
  set (gs := seeded kw iw).
  assert (Hn : 0 <= n) by lia.
  assert (Hk : 0 <= n / 8) by (apply Z.div_pos; lia).
  assert (Hk' : (n + m) / 8 = n / 8 + m / 8)
    by (Z.div_mod_to_equations; lia).
  assert (Hm8 : 0 <= m / 8) by (apply Z.div_pos; lia).
  unfold stream_out. cbv zeta.
  rewrite Hmod, Hk'. cbn [Z.to_nat tail_bytes seq map]. rewrite app_nil_r.
  rewrite Z2Nat.inj_add, stream_bytes_add, <- app_assoc by lia.
  rewrite firstn_app, stream_bytes_length.
  replace (Z.to_nat n - 8 * Z.to_nat (n / 8))%nat with 0%nat
    by (Z.div_mod_to_equations; lia).
  rewrite firstn_all2 by (rewrite stream_bytes_length; Z.div_mod_to_equations; lia).
  cbn [firstn]. rewrite app_nil_r. reflexivity.
Qed.

Lemma generate_prefix_witness :
  exists out out',
    generate (mkState 1 2 3 4 5 6) (be_bytes 0x1112131415161718)
      (be_bytes 0xAAABACADADAFFFCC) 8 (repeat Byte.x00 8) = Ok out /\
    generate (mkState 6 5 4 3 2 1) (be_bytes 0x1112131415161718)
      (be_bytes 0xAAABACADADAFFFCC) (8 + 5) (repeat Byte.xff 13) = Ok out' /\
    out = firstn (Z.to_nat 8) out'.
Proof.
  eexists. eexists. split; [vm_compute; reflexivity|].
  split; [vm_compute; reflexivity|].
  apply (generate_prefix (mkState 1 2 3 4 5 6) (mkState 6 5 4 3 2 1)
           (be_bytes 0x1112131415161718) (be_bytes 0xAAABACADADAFFFCC)
           8 5 (repeat Byte.x00 8) (repeat Byte.xff 13)).
  - reflexivity.
  - lia.
  - lia.
  - reflexivity.
  - reflexivity.
  - vm_compute. reflexivity.
  - vm_compute. reflexivity.
Defined.

(** C5 at key 11 12 .. 18, sequence number AA AB AC AD AD AF FF CC and a
    length of 5: one step is taken after seeding and its output word is
    0x592885C3C6D2E9C9; the call returns the five bytes
    [(z >> (7 - i)) & 0xff], windows of the low 15 bits of the word, where
    the big-endian truncation of the word is 59 28 85 C3 C6. *)
Theorem tail_is_not_big_endian_truncation :
  let key := be_bytes 0x1112131415161718 in
  let iv := be_bytes 0xAAABACADADAFFFCC in
  let gs := seeded 0x1112131415161718 0xAAABACADADAFFFCC in
  let z := fst (trivium64_next gs) in
  z = 0x592885C3C6D2E9C9 /\
  trivium_api (mkState 0 0 0 0 0 0) key iv 5 (repeat Byte.x00 5) =
    Ok (steps 1 gs, [Byte.xd3; Byte.xa7; Byte.x4e; Byte.x9c; Byte.x39]) /\
  tail_bytes 5 z = [Byte.xd3; Byte.xa7; Byte.x4e; Byte.x9c; Byte.x39] /\
  be_truncate 5 z = [Byte.x59; Byte.x28; Byte.x85; Byte.xc3; Byte.xc6].
Proof.
  cbv zeta. repeat split; vm_compute; reflexivity.
Qed.

(** C10 at a length of 2^31 + 8 with a buffer of that capacity: the [int]
    counter of the full-word loop reaches 2^31 - 8 and its increment by 8
    overflows, so the call leaves defined behaviour before the bytes from
    2^31 on are written. *)
Theorem trivium_api_counter_overflow :
  trivium_api (mkState 0 0 0 0 0 0) (be_bytes 0x1112131415161718)
    (be_bytes 0xAAABACADADAFFFCC) (2 ^ 31 + 8)
    (repeat Byte.x00 (Z.to_nat (2 ^ 31 + 8))) =
  Undefined SignedOverflow.
Proof.
  apply (trivium_api_overflow _ _ _ _ _
           0x1112131415161718 0xAAABACADADAFFFCC).
  - rewrite <- (app_nil_r (be_bytes _)).
    apply bytes_to_uint64_be_bytes. unfold u64_ok. lia.
  - rewrite <- (app_nil_r (be_bytes _)).
    apply bytes_to_uint64_be_bytes. unfold u64_ok. lia.
  - unfold INT_MAX. lia.
  - rewrite repeat_length. lia.
Qed.

(** * Further properties of the code *)

(** ** The keystream step *)

Lemma steps_ok k g : state_ok g -> state_ok (steps k g).
Proof.
  intros H. unfold steps.
  induction k as [|k IH]; cbn [Nat.iter]; [exact H | apply next_state_ok, IH].
Qed.



Lemma shl64_low_bits x y a c :
  0 <= a -> 64 - a <= c -> x mod 2 ^ c = y mod 2 ^ c ->
  shl64 x a = shl64 y a.
Proof.
  intros Ha Hc Hxy. unfold shl64, wrap64.
  apply Z.bits_inj'. intros j Hj.
  rewrite !Z.testbit_mod_pow2 by lia.
  destruct (Z.ltb_spec j 64) as [Hlt|Hge]; [|reflexivity].
  cbn [andb]. rewrite !Z.shiftl_spec by exact Hj.
  destruct (Z.ltb_spec (j - a) 0) as [Hneg|Hpos].
  - rewrite !Z.testbit_neg_r by exact Hneg. reflexivity.
  - assert (Hc0 : 0 <= c) by lia.
    rewrite <- (Z.mod_pow2_bits_low x c (j - a)) by lia.
    rewrite <- (Z.mod_pow2_bits_low y c (j - a)) by lia.
    rewrite Hxy. reflexivity.
Qed.

(** X2: a step reads the newer word of each register in full but only the
    29 lowest bits of [s12], the 20 lowest bits of [s22] and the 47 lowest
    bits of [s32]: the 93, 84 and 111 bits of the three registers of
    Trivium.  Two states that agree there give the same output word and
    the same next state. *)
Theorem trivium64_next_reads_288_bits (g g' : state) :
  s11 g = s11 g' -> s21 g = s21 g' -> s31 g = s31 g' ->
  s12 g mod 2 ^ 29 = s12 g' mod 2 ^ 29 ->
  s22 g mod 2 ^ 20 = s22 g' mod 2 ^ 20 ->
  s32 g mod 2 ^ 47 = s32 g' mod 2 ^ 47 ->
  trivium64_next g = trivium64_next g'.
Proof.
  intros H11 H21 H31 H12 H22 H32.
  unfold trivium64_next, extract_taps.
  cbn [s66 s93 s162 s177 s243 s288 s91 s92 s171 s175 s176 s264 s286 s287 s69].
  unfold set_s11, set_s12, set_s21, set_s22, set_s31, set_s32.
  cbn [s11 s12 s21 s22 s31 s32].
  rewrite <- H11, <- H21, <- H31.
  rewrite (shl64_low_bits (s12 g) (s12 g') 62 29),
    (shl64_low_bits (s12 g) (s12 g') 35 29),
    (shl64_low_bits (s12 g) (s12 g') 37 29),
    (shl64_low_bits (s12 g) (s12 g') 36 29),
    (shl64_low_bits (s12 g) (s12 g') 59 29) by (assumption || lia).
  rewrite (shl64_low_bits (s22 g) (s22 g') 59 20),
    (shl64_low_bits (s22 g) (s22 g') 44 20),
    (shl64_low_bits (s22 g) (s22 g') 50 20),
    (shl64_low_bits (s22 g) (s22 g') 46 20),
    (shl64_low_bits (s22 g) (s22 g') 45 20) by (assumption || lia).
  rewrite (shl64_low_bits (s32 g) (s32 g') 62 47),
    (shl64_low_bits (s32 g) (s32 g') 17 47),
    (shl64_low_bits (s32 g) (s32 g') 41 47),
    (shl64_low_bits (s32 g) (s32 g') 19 47),
    (shl64_low_bits (s32 g) (s32 g') 18 47) by (assumption || lia).
  reflexivity.
Qed.

Lemma trivium64_next_reads_288_bits_witness :
  trivium64_next (mkState 11 (5 + 2 ^ 29) 21 (6 + 2 ^ 20) 31 (7 + 2 ^ 47)) =
  trivium64_next (mkState 11 5 21 6 31 7).
Proof.
  apply trivium64_next_reads_288_bits; reflexivity.
Defined.

(** ** The word codec *)

Lemma be_value_be_bytes w : be_value (be_bytes w) = w mod 2 ^ 64.
Proof.
  rewrite be_bytes_eq. unfold be_value. cbn [fold_left].
  rewrite !byte.unsigned_of_Z. unfold byte.wrap, shr64.
  rewrite !Z.shiftr_div_pow2 by lia.
  Z.div_mod_to_equations. lia.
Qed.

(** X3: [bytes_to_uint64] reads a buffer of eight bytes or more as a
    big-endian number: it returns
    b0 * 2^56 + b1 * 2^48 + .. + b6 * 2^8 + b7 and looks at no byte past
    the eighth. *)
Theorem bytes_to_uint64_big_endian (b : list byte) :
  (8 <= length b)%nat -> bytes_to_uint64 b = Ok (be_value (firstn 8 b)).
Proof.
  intros Hlen.
  destruct (bytes_to_uint64_total b Hlen) as (w & Hdec & Hw & Hbytes).
  rewrite Hdec, <- Hbytes, be_value_be_bytes. f_equal.
  symmetry. apply Z.mod_small, Hw.
Qed.

Lemma bytes_to_uint64_big_endian_witness :
  bytes_to_uint64
    [Byte.x11; Byte.x12; Byte.x13; Byte.x14; Byte.x15; Byte.x16; Byte.x17;
     Byte.x18; Byte.xff] =
  Ok (be_value
        (firstn 8 [Byte.x11; Byte.x12; Byte.x13; Byte.x14; Byte.x15; Byte.x16;
                   Byte.x17; Byte.x18; Byte.xff])).
Proof.
  apply bytes_to_uint64_big_endian. cbn [length]. lia.
Defined.

(** X4: [bytes_to_uint64] returns a word, and then one below 2^64, exactly
    when the buffer has eight bytes or more; on a shorter buffer its first
    read, of [bytes[7]], is outside the buffer. *)
Theorem bytes_to_uint64_needs_eight_bytes (b : list byte) :
  ((8 <= length b)%nat -> exists w, bytes_to_uint64 b = Ok w /\ u64_ok w) /\
  ((length b < 8)%nat -> bytes_to_uint64 b = Undefined OutOfBounds).
Proof.
  split.
  - intros Hlen.
    destruct (bytes_to_uint64_total b Hlen) as (w & Hdec & Hw & _).
    exists w. split; assumption.
  - apply bytes_to_uint64_short.
Qed.

Lemma bytes_to_uint64_needs_eight_bytes_witness :
  (exists w, bytes_to_uint64 (repeat Byte.x01 8) = Ok w /\ u64_ok w) /\
  bytes_to_uint64 (repeat Byte.x01 7) = Undefined OutOfBounds.
Proof.
  split.
  - apply (proj1 (bytes_to_uint64_needs_eight_bytes (repeat Byte.x01 8))).
    cbn [repeat length]. lia.
  - apply (proj2 (bytes_to_uint64_needs_eight_bytes (repeat Byte.x01 7))).
    cbn [repeat length]. lia.
Defined.

(** X5: when the eight bytes from [p] on lie inside the buffer,
    [uint64_to_bytes(u, &mem[p])] returns the buffer with exactly those
    eight bytes replaced, all others as they were; the eight bytes are the
    big-endian bytes of [u], of value [u mod 2^64]. *)
Theorem uint64_to_bytes_frame (u : Z) (mem : list byte) (p : Z) :
  0 <= p -> p + 8 <= Z.of_nat (length mem) ->
  uint64_to_bytes u mem p =
    Ok (firstn (Z.to_nat p) mem ++ be_bytes u ++ skipn (Z.to_nat p + 8) mem) /\
  length (be_bytes u) = 8%nat /\
  be_value (be_bytes u) = u mod 2 ^ 64.
Proof.
  intros Hp Hlen.
  split; [|split; [reflexivity | apply be_value_be_bytes]].
  destruct (firstn_length_split mem (Z.to_nat p)) as (pre & rest & -> & Hpre);
    [lia|].
  rewrite length_app in Hlen.
  destruct (firstn_length_split rest 8) as (mid & post & -> & Hmid); [lia|].
  assert (Hp' : p = Z.of_nat (length pre)) by lia. subst p.
  rewrite uint64_to_bytes_spec by exact Hmid.
  rewrite Nat2Z.id. do 2 f_equal.
  - rewrite firstn_app, Nat.sub_diag, firstn_all2 by lia.
    cbn [firstn]. rewrite app_nil_r. reflexivity.
  - f_equal. rewrite skipn_app, skipn_all2 by lia.
    replace (length pre + 8 - length pre)%nat with (length mid + 0)%nat by lia.
    rewrite skipn_app, skipn_all2 by lia.
    replace (length mid + 0 - length mid)%nat with 0%nat by lia.
    reflexivity.
Qed.

Lemma uint64_to_bytes_frame_witness :
  uint64_to_bytes 0x1112131415161718 (repeat Byte.xff 12) 3 =
    Ok (firstn (Z.to_nat 3) (repeat Byte.xff 12) ++
        be_bytes 0x1112131415161718 ++
        skipn (Z.to_nat 3 + 8) (repeat Byte.xff 12)) /\
  length (be_bytes 0x1112131415161718) = 8%nat /\
  be_value (be_bytes 0x1112131415161718) = 0x1112131415161718 mod 2 ^ 64.
Proof.
  apply uint64_to_bytes_frame; cbn [repeat length]; lia.
Defined.

Lemma in_bounds_set_nth n b mem p :
  in_bounds (set_nth n b mem) p = in_bounds mem p.
Proof. unfold in_bounds. rewrite length_set_nth. reflexivity. Qed.

Lemma u2b_loop_out_of_bounds (fuel : nat) : forall i u mem p,
  0 <= i -> i + Z.of_nat fuel = 8 ->
  (exists i', i <= i' < 8 /\ in_bounds mem (p + (sizeof_u64 - 1 - i')) = false) ->
  while u2b_cond (u2b_body p) fuel (i, u, mem) = Undefined OutOfBounds.
Proof.
  induction fuel as [|fuel IH]; intros i u mem p Hi Hfuel (i' & Hi' & Hout).
  - lia.
  - destruct (in_bounds mem (p + (sizeof_u64 - 1 - i))) eqn:Hin.
    + rewrite (while_step _ _ _ _
                 (i + 1, shr64 u 8,
                  set_nth (Z.to_nat (p + (sizeof_u64 - 1 - i)))
                    (byte.of_Z (Z.land u 0xff)) mem)).
      * apply IH; [lia | lia |].
        exists i'. rewrite in_bounds_set_nth. split; [|exact Hout].
        assert (i' <> i) by (intros ->; congruence). lia.
      * unfold u2b_cond, sizeof_u64. apply Z.ltb_lt. lia.
      * unfold u2b_body, store. rewrite Hin. reflexivity.
    + apply while_undefined.
      * unfold u2b_cond, sizeof_u64. apply Z.ltb_lt. lia.
      * unfold u2b_body, store. rewrite Hin. reflexivity.
Qed.

Lemma uint64_to_bytes_oob u mem p :
  p < 0 \/ Z.of_nat (length mem) < p + 8 ->
  uint64_to_bytes u mem p = Undefined OutOfBounds.
Proof.
  intros H. unfold uint64_to_bytes.
  change (Z.to_nat sizeof_u64) with 8%nat.
  rewrite (u2b_loop_out_of_bounds 8); [reflexivity | lia | reflexivity |].
  unfold in_bounds, sizeof_u64. destruct H as [H|H].
  - exists 7. split; [lia|].
    replace (0 <=? p + (8 - 1 - 7)) with false
      by (symmetry; apply Z.leb_gt; lia).
    reflexivity.
  - exists 0. split; [lia|].
    replace (p + (8 - 1 - 0) <? Z.of_nat (length mem)) with false
      by (symmetry; apply Z.ltb_ge; lia).
    apply andb_false_r.
Qed.

(** X6: [uint64_to_bytes(u, &mem[p])] leaves the buffer whenever one of the
    eight bytes from [p] on lies outside it: it is an out-of-bounds write,
    also when only some of the eight are outside. *)
Theorem uint64_to_bytes_out_of_bounds (u : Z) (mem : list byte) (p : Z) :
  p < 0 \/ Z.of_nat (length mem) < p + 8 ->
  uint64_to_bytes u mem p = Undefined OutOfBounds.
Proof. apply uint64_to_bytes_oob. Qed.

Lemma uint64_to_bytes_out_of_bounds_witness :
  uint64_to_bytes 0x1112131415161718 (repeat Byte.x00 12) 5 =
    Undefined OutOfBounds /\
  uint64_to_bytes 0x1112131415161718 (repeat Byte.x00 12) (-1) =
    Undefined OutOfBounds.
Proof.
  split; apply uint64_to_bytes_out_of_bounds; cbn [repeat length]; lia.
Defined.

(** ** The stream driver: its bounds *)

Lemma store_oob mem p b :
  Z.of_nat (length mem) <= p -> store mem p b = Undefined OutOfBounds.
Proof.
  intros Hp. unfold store, in_bounds.
  replace (p <? Z.of_nat (length mem)) with false
    by (symmetry; apply Z.ltb_ge; lia).
  rewrite andb_false_r. reflexivity.
Qed.

Lemma bytes_to_uint64_decodes b :
  (8 <= length b)%nat ->
  bytes_to_uint64 b = Ok (be_value (firstn 8 b)) /\
  u64_ok (be_value (firstn 8 b)).
Proof.
  intros Hlen.
  destruct (bytes_to_uint64_total b Hlen) as (w & Hdec & Hw & Hbytes).
  rewrite <- Hbytes, be_value_be_bytes, Z.mod_small by exact Hw.
  split; assumption.
Qed.

(** X7: a key or a sequence number of fewer than eight bytes makes
    [trivium_api] read outside it; the call has no defined result, whatever
    the length asked for and the buffer. *)
Theorem trivium_api_short_key (g : state) (key iv : list byte) (n : Z)
    (ks : list byte) :
  (length key < 8)%nat \/ (length iv < 8)%nat ->
  trivium_api g key iv n ks = Undefined OutOfBounds.
Proof.
  intros H. unfold trivium_api.
  destruct (Nat.lt_ge_cases (length key) 8) as [Hk|Hk].
  - rewrite (bytes_to_uint64_short key Hk). reflexivity.
  - destruct H as [H|H]; [lia|].
    destruct (bytes_to_uint64_decodes key Hk) as [-> _]. cbn [bind].
    rewrite (bytes_to_uint64_short iv H). reflexivity.
Qed.

Lemma trivium_api_short_key_witness :
  trivium_api (mkState 0 0 0 0 0 0) (repeat Byte.x01 8) (repeat Byte.x02 7) 16
    (repeat Byte.x00 16) = Undefined OutOfBounds.
Proof.
  apply trivium_api_short_key. right. cbn [repeat length]. lia.
Defined.

(** X8: for keys of eight bytes and a length [n] of at most [INT_MAX],
    [trivium_api] returns on every buffer of [n] bytes or more: it
    overwrites exactly the first [n] bytes, with bytes that depend on
    neither the old registers nor the old buffer, and leaves every byte
    from [n] on as it was. *)
Theorem trivium_api_writes_exactly (key iv : list byte) (n : Z) :
  (8 <= length key)%nat -> (8 <= length iv)%nat -> 0 <= n <= INT_MAX ->
  exists g' bytes,
    length bytes = Z.to_nat n /\
    forall g ks, n <= Z.of_nat (length ks) ->
      trivium_api g key iv n ks = Ok (g', bytes ++ skipn (Z.to_nat n) ks).
Proof.
  intros Hkey Hiv Hn.
  destruct (bytes_to_uint64_decodes key Hkey) as [Hkw _].
  destruct (bytes_to_uint64_decodes iv Hiv) as [Hiw _].
  eexists. eexists. split; [|intros g ks Hks].
  2: apply (trivium_api_in_range g key iv n ks _ _ Hkw Hiw Hn Hks).
  apply stream_out_length. lia.
Qed.

Lemma trivium_api_writes_exactly_witness :
  exists g' bytes,
    length bytes = Z.to_nat 13 /\
    forall g ks, 13 <= Z.of_nat (length ks) ->
      trivium_api g (be_bytes 0x1112131415161718)
        (be_bytes 0xAAABACADADAFFFCC) 13 ks =
      Ok (g', bytes ++ skipn (Z.to_nat 13) ks).
Proof.
  apply trivium_api_writes_exactly;
    [cbn [length be_bytes map seq]; lia .. | unfold INT_MAX; lia].
Defined.

(** A buffer shorter than the request, and short of 2^31 bytes, is overrun:
    the full-word loop or the tail loop writes at its end. *)
Lemma trivium_api_overrun g key iv n ks kw iw :
  bytes_to_uint64 key = Ok kw -> bytes_to_uint64 iv = Ok iw ->
  0 <= n < 2 ^ 64 ->
  Z.of_nat (length ks) < n -> Z.of_nat (length ks) <= INT_MAX ->
  trivium_api g key iv n ks = Undefined OutOfBounds.
Proof.
  intros Hkw Hiw Hn Hks Hcap.
  unfold INT_MAX in Hcap.
  unfold trivium_api. rewrite Hkw, Hiw. cbn [bind].
  rewrite trivium64_setseed_eq. cbn [bind].
  set (gs := seeded _ _).
  pose proof (Z.mod_pos_bound n 8 ltac:(lia)) as Hr.
  pose proof (Z.div_mod n 8 ltac:(lia)) as Hdm.
  set (r := n mod 8) in *.
  assert (Hmax : n < 2 ^ 64) by lia.
  rewrite (wrap_size_small (n - r)) by lia.
  destruct (Z_lt_le_dec (Z.of_nat (length ks)) (n - r)) as [Hfull|Htail].
  - (* the buffer ends inside the full words *)
    set (k := Z.to_nat (Z.of_nat (length ks) / 8)).
    assert (Hk : 8 * Z.of_nat k <= Z.of_nat (length ks) < 8 * Z.of_nat k + 8)
      by (subst k; Z.div_mod_to_equations; lia).
    destruct (firstn_length_split ks (8 * k)) as (mid & rest & -> & Hmid);
      [lia|].
    rewrite length_app in Hk, Hfull, Hcap.
    assert (exists fuel, Z.to_nat (n - r) = (k + S fuel)%nat) as [fuel ->]
      by (exists (Z.to_nat (n - r) - k - 1)%nat; lia).
    change (0, gs, mid ++ rest)
      with (Z.of_nat (length (@nil byte)), gs, [] ++ mid ++ rest).
    rewrite (full_loop k) by (unfold INT_MAX; cbn [length]; lia).
    cbn [length app].
    rewrite (while_undefined _ _ _ _ OutOfBounds); [reflexivity| |].
    + unfold full_cond. rewrite size_of_int_small by (unfold INT_MAX; lia).
      apply Z.ltb_lt. lia.
    + unfold full_body.
      destruct (trivium64_next (steps k gs)) as [z g'].
      rewrite uint64_to_bytes_oob; [reflexivity|].
      right. rewrite length_app, stream_bytes_length. lia.
  - (* the buffer ends inside the tail *)
    set (k := Z.to_nat (n / 8)).
    assert (Hk : 8 * Z.of_nat k = n - r) by (subst k; lia).
    destruct (firstn_length_split ks (8 * k)) as (mid & rest & -> & Hmid);
      [lia|].
    rewrite length_app in Hks, Htail, Hcap.
    replace (Z.to_nat (n - r)) with (k + 7 * k)%nat by lia.
    change (0, gs, mid ++ rest)
      with (Z.of_nat (length (@nil byte)), gs, [] ++ mid ++ rest).
    rewrite (full_loop k) by (unfold INT_MAX; cbn [length]; lia).
    rewrite while_done
      by (unfold full_cond;
          rewrite size_of_int_small by (unfold INT_MAX; cbn [length]; lia);
          apply Z.ltb_ge; cbn [length]; lia).
    cbn [bind app].
    replace (negb (r =? 0)) with true
      by (symmetry; apply negb_true_iff, Z.eqb_neq; lia).
    destruct (trivium64_next (steps k gs)) as [z g'].
    assert (exists fuel, Z.to_nat r = (length rest + S fuel)%nat) as [fuel ->]
      by (exists (Z.to_nat r - length rest - 1)%nat; lia).
    replace (0, stream_bytes k gs ++ rest)
      with (Z.of_nat 0, stream_bytes k gs ++ [] ++ rest ++ [])
      by (cbn [app Z.of_nat]; rewrite app_nil_r; reflexivity).
    rewrite (tail_loop (length rest)); try assumption; try reflexivity;
      [ | rewrite stream_bytes_length; lia | lia | unfold INT_MAX; lia ].
    rewrite (while_undefined _ _ _ _ OutOfBounds); [reflexivity| |].
    + unfold tail_cond. cbn [fst].
      rewrite size_of_int_small by (unfold INT_MAX; lia).
      apply Z.ltb_lt. lia.
    + unfold tail_body.
      rewrite store_oob; [reflexivity|].
      rewrite (size_of_int_small (Z.of_nat (0 + length rest)))
        by (unfold INT_MAX; lia).
      rewrite (wrap_size_small (n - r)) by lia.
      rewrite wrap_size_small by lia.
      rewrite !length_app, stream_bytes_length, length_map, length_seq.
      cbn [length]. lia.
Qed.

(** X9: for keys of eight bytes and a length [n] of at most [INT_MAX], a
    buffer of fewer than [n] bytes is overrun: the call ends in a write
    outside the buffer. *)
Theorem trivium_api_buffer_too_small (g : state) (key iv : list byte) (n : Z)
    (ks : list byte) :
  (8 <= length key)%nat -> (8 <= length iv)%nat -> 0 <= n <= INT_MAX ->
  Z.of_nat (length ks) < n ->
  trivium_api g key iv n ks = Undefined OutOfBounds.
Proof.
  intros Hkey Hiv Hn Hks.
  destruct (bytes_to_uint64_decodes key Hkey) as [Hkw _].
  destruct (bytes_to_uint64_decodes iv Hiv) as [Hiw _].
  apply (trivium_api_overrun g key iv n ks _ _ Hkw Hiw);
    unfold INT_MAX in *; lia.
Qed.

Lemma trivium_api_buffer_too_small_witness :
  trivium_api (mkState 0 0 0 0 0 0) (be_bytes 0x1112131415161718)
    (be_bytes 0xAAABACADADAFFFCC) 13 (repeat Byte.x00 11) =
  Undefined OutOfBounds.
Proof.
  apply trivium_api_buffer_too_small;
    [ cbn [length be_bytes map seq]; lia ..
    | unfold INT_MAX; lia
    | cbn [repeat length]; lia ].
Defined.

(** X10: for keys of eight bytes, every length from 2^31 up to the range
    of [size_t], with a buffer that large, ends in the overflow of the
    [int] counter of the full-word loop: no such request returns. *)
Theorem trivium_api_large_request (g : state) (key iv : list byte) (n : Z)
    (ks : list byte) :
  (8 <= length key)%nat -> (8 <= length iv)%nat ->
  INT_MAX < n < 2 ^ 64 -> n <= Z.of_nat (length ks) ->
  trivium_api g key iv n ks = Undefined SignedOverflow.
Proof.
  intros Hkey Hiv Hn Hks.
  destruct (bytes_to_uint64_decodes key Hkey) as [Hkw _].
  destruct (bytes_to_uint64_decodes iv Hiv) as [Hiw _].
  apply (trivium_api_overflow g key iv n ks _ _ Hkw Hiw Hn Hks).
Qed.

Lemma trivium_api_large_request_witness :
  trivium_api (mkState 0 0 0 0 0 0) (repeat Byte.x01 8) (repeat Byte.x02 8)
    (2 ^ 31 + 3) (repeat Byte.x00 (Z.to_nat (2 ^ 31 + 3))) =
  Undefined SignedOverflow.
Proof.
  apply trivium_api_large_request.
  - cbn [repeat length]. lia.
  - cbn [repeat length]. lia.
  - unfold INT_MAX. lia.
  - rewrite repeat_length. lia.
Defined.

(** ** The stream against bit-serial Trivium *)

Lemma bits_of_steps (m : nat) g :
  state_ok g ->
  bits_of_state (steps m g) = TriviumRef.rounds (64 * m) (bits_of_state g).
Proof.
  revert g. induction m as [|m IH]; intros g Hg.
  - reflexivity.
  - replace (64 * S m)%nat with (64 + 64 * m)%nat by lia.
    rewrite steps_succ, rounds_add, IH by (apply next_state_ok, Hg).
    destruct (batch g Hg) as [-> _]. reflexivity.
Qed.

Lemma seeded_refines key seq (k : nat) :
  u64_ok key -> u64_ok seq ->
  keystream k (seeded key seq) =
  TriviumRef.words k
    (skipn 1152 (TriviumRef.run (1152 + 64 * k) (TriviumRef.init key seq))).
Proof.
  intros Hk Hs. unfold seeded.
  assert (Hg : state_ok (mkState key 0 seq 0 0 0x700000000000))
    by (rewrite <- (seed_registers_eq key seq (mkState 0 0 0 0 0 0));
        apply seed_registers_ok; assumption).
  rewrite keystream_refines by (apply steps_ok, Hg).
  rewrite bits_of_steps by exact Hg.
  rewrite <- (seed_registers_eq key seq (mkState 0 0 0 0 0 0)),
    bits_of_seed_registers.
  change (64 * 18)%nat with 1152%nat.
  rewrite run_add, skipn_app, run_length, Nat.sub_diag.
  rewrite skipn_all2 by (rewrite run_length; lia).
  reflexivity.
Qed.

(** X11: seeding followed by [k] steps puts out Trivium keystream proper:
    for a 64-bit key and sequence number, the words after
    [trivium64_setseed] are bits 1153, 1154, .. of bit-serial Trivium run
    from the canonical initial state (its output after the 4 * 288
    initialisation rounds), packed 64 to a word, the first bit the most
    significant. *)
Theorem seeded_keystream_is_trivium (key seq : Z) (k : nat) (g : state) :
  u64_ok key -> u64_ok seq ->
  exists gs,
    trivium64_setseed key seq g = Ok gs /\
    keystream k gs =
    TriviumRef.words k
      (skipn (4 * 288)
         (TriviumRef.run (4 * 288 + 64 * k) (TriviumRef.init key seq))).
Proof.
  intros Hk Hs. exists (seeded key seq).
  split; [apply trivium64_setseed_eq|].
  change (4 * 288)%nat with 1152%nat.
  apply seeded_refines; assumption.
Qed.

Lemma seeded_keystream_is_trivium_witness :
  exists gs,
    trivium64_setseed 0x1112131415161718 0xAAABACADADAFFFCC
      (mkState 1 2 3 4 5 6) = Ok gs /\
    keystream 2 gs =
    TriviumRef.words 2
      (skipn (4 * 288)
         (TriviumRef.run (4 * 288 + 64 * 2)
            (TriviumRef.init 0x1112131415161718 0xAAABACADADAFFFCC))).
Proof.
  apply seeded_keystream_is_trivium; unfold u64_ok; lia.
Defined.

Lemma stream_out_full g n :
  n mod 8 = 0 -> stream_out g n = stream_bytes (Z.to_nat (n / 8)) g.
Proof.
  intros Hr. unfold stream_out. cbv zeta. rewrite Hr.
  cbn [Z.to_nat tail_bytes seq map]. apply app_nil_r.
Qed.

(** X12: end to end, for keys of eight bytes and a length of [8 * k] bytes
    within reach: the bytes [trivium_api] writes are the keystream of
    bit-serial Trivium after its 1152 initialisation rounds, for the key
    and the sequence number read big-endian, 64 bits to a word and each
    word written most significant byte first. *)
Theorem generate_is_trivium_keystream (g : state) (key iv : list byte)
    (k : nat) (ks : list byte) :
  (8 <= length key)%nat -> (8 <= length iv)%nat ->
  8 * Z.of_nat k <= INT_MAX -> 8 * Z.of_nat k <= Z.of_nat (length ks) ->
  generate g key iv (8 * Z.of_nat k) ks =
  Ok (flat_map be_bytes
        (TriviumRef.words k
           (skipn (4 * 288)
              (TriviumRef.run (4 * 288 + 64 * k)
                 (TriviumRef.init (be_value (firstn 8 key))
                    (be_value (firstn 8 iv)))))) ++
      skipn (8 * k) ks).
Proof.
  intros Hkey Hiv Hmax Hks.
  destruct (bytes_to_uint64_decodes key Hkey) as [Hkw Hkok].
  destruct (bytes_to_uint64_decodes iv Hiv) as [Hiw Hiok].
  unfold generate.
  rewrite (trivium_api_in_range g key iv _ ks _ _ Hkw Hiw) by lia.
  cbn [bind].
  rewrite stream_out_full by (rewrite Z.mul_comm; apply Z.mod_mul; lia).
  replace (8 * Z.of_nat k / 8) with (Z.of_nat k)
    by (rewrite Z.mul_comm, Z.div_mul; lia).
  rewrite Nat2Z.id.
  replace (Z.to_nat (8 * Z.of_nat k)) with (8 * k)%nat by lia.
  unfold stream_bytes.
  change (4 * 288)%nat with 1152%nat.
  rewrite seeded_refines by assumption. reflexivity.
Qed.

Lemma generate_is_trivium_keystream_witness :
  generate (mkState 1 2 3 4 5 6) (be_bytes 0x1112131415161718)
    (be_bytes 0xAAABACADADAFFFCC) (8 * Z.of_nat 2) (repeat Byte.x00 17) =
  Ok (flat_map be_bytes
        (TriviumRef.words 2
           (skipn (4 * 288)
              (TriviumRef.run (4 * 288 + 64 * 2)
                 (TriviumRef.init
                    (be_value (firstn 8 (be_bytes 0x1112131415161718)))
                    (be_value (firstn 8 (be_bytes 0xAAABACADADAFFFCC))))))) ++
      skipn (8 * 2) (repeat Byte.x00 17)).
Proof.
  apply generate_is_trivium_keystream.
  - cbn [length be_bytes map seq]. lia.
  - cbn [length be_bytes map seq]. lia.
  - unfold INT_MAX. lia.
  - cbn [repeat length]. lia.
Defined.

(** ** The stream driver: how requests relate *)

Lemma firstn_stream_out g n (k : nat) :
  (k <= Z.to_nat (n / 8))%nat ->
  firstn (8 * k) (stream_out g n) = stream_bytes k g.
Proof.
  intros Hk. unfold stream_out. cbv zeta.
  replace (Z.to_nat (n / 8)) with (k + (Z.to_nat (n / 8) - k))%nat by lia.
  rewrite stream_bytes_add, <- app_assoc.
  rewrite firstn_app, stream_bytes_length, Nat.sub_diag.
  rewrite firstn_all2 by (rewrite stream_bytes_length; lia).
  cbn [firstn]. apply app_nil_r.
Qed.

(** X13: for keys of eight bytes and any two lengths [n <= n + m] within
    reach, a multiple of 8 or not, both requests return and agree on the
    full words of the shorter one, its first [8 * (n / 8)] bytes; only the
    tail of a request, its last [n mod 8] bytes, is not part of the longer
    stream. *)
Theorem generate_full_word_prefix (g g' : state) (key iv : list byte)
    (n m : Z) (ks ks' : list byte) :
  (8 <= length key)%nat -> (8 <= length iv)%nat ->
  0 <= n -> 0 <= m -> n + m <= INT_MAX ->
  Z.of_nat (length ks) = n -> Z.of_nat (length ks') = n + m ->
  exists out out',
    generate g key iv n ks = Ok out /\
    generate g' key iv (n + m) ks' = Ok out' /\
    firstn (8 * Z.to_nat (n / 8)) out = firstn (8 * Z.to_nat (n / 8)) out'.
Proof.
  intros Hkey Hiv Hn Hm Hmax Hks Hks'.
  destruct (bytes_to_uint64_decodes key Hkey) as [Hkw _].
  destruct (bytes_to_uint64_decodes iv Hiv) as [Hiw _].
  unfold generate.
  rewrite (trivium_api_in_range g key iv n ks _ _ Hkw Hiw) by lia.
  rewrite (trivium_api_in_range g' key iv (n + m) ks' _ _ Hkw Hiw) by lia.
  cbn [bind]. eexists. eexists. split; [reflexivity|]. split; [reflexivity|].
  rewrite !skipn_all2, !app_nil_r by lia.
  rewrite !firstn_stream_out; [reflexivity | | lia].
  apply Z2Nat.inj_le; [apply Z.div_pos; lia | apply Z.div_pos; lia |].
  apply Z.div_le_mono; lia.
Qed.

Lemma generate_full_word_prefix_witness :
  exists out out',
    generate (mkState 1 2 3 4 5 6) (be_bytes 0x1112131415161718)
      (be_bytes 0xAAABACADADAFFFCC) 13 (repeat Byte.x00 13) = Ok out /\
    generate (mkState 6 5 4 3 2 1) (be_bytes 0x1112131415161718)
      (be_bytes 0xAAABACADADAFFFCC) (13 + 6) (repeat Byte.xff 19) = Ok out' /\
    firstn (8 * Z.to_nat (13 / 8)) out = firstn (8 * Z.to_nat (13 / 8)) out'.
Proof.
  apply generate_full_word_prefix.
  - cbn [length be_bytes map seq]. lia.
  - cbn [length be_bytes map seq]. lia.
  - lia.
  - lia.
  - unfold INT_MAX. lia.
  - reflexivity.
  - reflexivity.
Defined.

(** X14: the tail bytes of a request overlap.  For keys of eight bytes and
    a length [n] within reach whose remainder [n mod 8] is 2 or more, each
    tail byte but the first repeats the seven low bits of the byte before
    it as its seven high bits: byte [j + 1] of the tail, halved, is byte
    [j] modulo 128. *)
Theorem tail_bytes_overlap (g : state) (key iv : list byte) (n : Z)
    (ks : list byte) (j : nat) :
  (8 <= length key)%nat -> (8 <= length iv)%nat ->
  0 <= n <= INT_MAX -> n <= Z.of_nat (length ks) ->
  Z.of_nat j + 1 < n mod 8 ->
  exists out,
    generate g key iv n ks = Ok out /\
    byte.unsigned (nth (8 * Z.to_nat (n / 8) + j + 1) out Byte.x00) / 2 =
    byte.unsigned (nth (8 * Z.to_nat (n / 8) + j) out Byte.x00) mod 2 ^ 7.
Proof.
  intros Hkey Hiv Hn Hks Hj.
  destruct (bytes_to_uint64_decodes key Hkey) as [Hkw _].
  destruct (bytes_to_uint64_decodes iv Hiv) as [Hiw _].
  unfold generate.
  rewrite (trivium_api_in_range g key iv n ks _ _ Hkw Hiw) by lia.
  cbn [bind]. eexists. split; [reflexivity|].
  set (gs := seeded _ _).
  pose proof (Z.mod_pos_bound n 8 ltac:(lia)) as Hr.
  unfold stream_out. cbv zeta.
  set (K := Z.to_nat (n / 8)). set (z := fst (trivium64_next (steps K gs))).
  assert (Htail : forall i : nat, Z.of_nat i < n mod 8 ->
            nth (8 * K + i)
              ((stream_bytes K gs ++ tail_bytes (Z.to_nat (n mod 8)) z) ++
               skipn (Z.to_nat n) ks) Byte.x00 =
            byte.of_Z (Z.land (shr64 z (7 - Z.of_nat i)) 0xff)).
  { intros i Hi.
    assert (Hlen : length (tail_bytes (Z.to_nat (n mod 8)) z) =
                   Z.to_nat (n mod 8))
      by (unfold tail_bytes; rewrite length_map, length_seq; reflexivity).
    rewrite app_nth1
      by (rewrite length_app, stream_bytes_length, Hlen; lia).
    rewrite app_nth2 by (rewrite stream_bytes_length; lia).
    rewrite stream_bytes_length.
    replace (8 * K + i - 8 * K)%nat with i by lia.
    unfold tail_bytes. rewrite nth_map_seq by lia. reflexivity. }
  replace (8 * K + j + 1)%nat with (8 * K + (j + 1))%nat by lia.
  rewrite !Htail by lia.
  rewrite !byte_of_Z_land, !byte.unsigned_of_Z. unfold byte.wrap, shr64.
  replace (7 - Z.of_nat j) with ((7 - Z.of_nat (j + 1)) + 1) by lia.
  rewrite <- Z.shiftr_shiftr by lia.
  generalize (Z.shiftr z (7 - Z.of_nat (j + 1))). intros a.
  rewrite Z.shiftr_div_pow2 by lia.
  Z.div_mod_to_equations. lia.
Qed.

Lemma tail_bytes_overlap_witness :
  exists out,
    generate (mkState 0 0 0 0 0 0) (be_bytes 0x1112131415161718)
      (be_bytes 0xAAABACADADAFFFCC) 13 (repeat Byte.x00 13) = Ok out /\
    byte.unsigned (nth (8 * Z.to_nat (13 / 8) + 2 + 1) out Byte.x00) / 2 =
    byte.unsigned (nth (8 * Z.to_nat (13 / 8) + 2) out Byte.x00) mod 2 ^ 7.
Proof.
  apply (tail_bytes_overlap _ _ _ 13 _ 2).
  - cbn [length be_bytes map seq]. lia.
  - cbn [length be_bytes map seq]. lia.
  - unfold INT_MAX. lia.
  - cbn [repeat length]. lia.
  - reflexivity.
Defined.

(** X15: the registers [trivium_api] leaves carry the stream on.  After a
    request of [n] bytes, [n] a multiple of 8, one more call of
    [trivium64_next] on the registers left gives the word whose eight
    bytes a request of [n + 8] bytes appends to the same output. *)
Theorem trivium_api_then_next (g g' : state) (key iv : list byte) (n : Z)
    (ks ks' : list byte) (g1 : state) (out : list byte) :
  n mod 8 = 0 -> n + 8 <= INT_MAX ->
  Z.of_nat (length ks) = n -> Z.of_nat (length ks') = n + 8 ->
  trivium_api g key iv n ks = Ok (g1, out) ->
  generate g' key iv (n + 8) ks' =
  Ok (out ++ be_bytes (fst (trivium64_next g1))).
Proof.
  intros Hr Hmax Hks Hks' H.
  assert (Hn : 0 <= n) by lia.
  apply trivium_api_inv in H as (kw & iw & Hkw & Hiw & _ & -> & ->);
    [ | unfold INT_MAX in Hmax; lia | lia ].
  unfold generate.
  rewrite (trivium_api_in_range g' key iv (n + 8) ks' _ _ Hkw Hiw) by lia.
  cbn [bind]. f_equal.
  rewrite !skipn_all2, !app_nil_r by lia.
  set (gs := seeded kw iw).
  assert (Hk : 0 <= n / 8) by (apply Z.div_pos; lia).
  rewrite (stream_out_full gs n Hr).
  rewrite stream_out_full by (Z.div_mod_to_equations; lia).
  replace ((n + 8) / 8) with (n / 8 + 1) by (Z.div_mod_to_equations; lia).
  rewrite Z2Nat.inj_add, stream_bytes_add by lia.
  rewrite steps_for_full by assumption.
  apply (f_equal (app _)). change (Z.to_nat 1) with 1%nat.
  rewrite stream_bytes_succ. cbn [stream_bytes keystream flat_map].
  apply app_nil_r.
Qed.

Lemma trivium_api_then_next_witness :
  exists g1 out,
    trivium_api (mkState 1 2 3 4 5 6) (be_bytes 0x1112131415161718)
      (be_bytes 0xAAABACADADAFFFCC) 8 (repeat Byte.x00 8) = Ok (g1, out) /\
    generate (mkState 6 5 4 3 2 1) (be_bytes 0x1112131415161718)
      (be_bytes 0xAAABACADADAFFFCC) (8 + 8) (repeat Byte.xff 16) =
    Ok (out ++ be_bytes (fst (trivium64_next g1))).
Proof.
  eexists. eexists. split; [vm_compute; reflexivity|].
  apply (trivium_api_then_next (mkState 1 2 3 4 5 6) (mkState 6 5 4 3 2 1)
           (be_bytes 0x1112131415161718) (be_bytes 0xAAABACADADAFFFCC)
           8 (repeat Byte.x00 8) (repeat Byte.xff 16)).
  - reflexivity.
  - unfold INT_MAX. lia.
  - reflexivity.
  - reflexivity.
  - vm_compute. reflexivity.
Defined.

(** ** The stream driver: when it returns *)

(** The counter overflows as soon as the buffer reaches 2^31 bytes, be it
    shorter than the request. *)
Lemma trivium_api_overflow_any g key iv n ks kw iw :
  bytes_to_uint64 key = Ok kw -> bytes_to_uint64 iv = Ok iw ->
  INT_MAX < n < 2 ^ 64 -> INT_MAX < Z.of_nat (length ks) ->
  trivium_api g key iv n ks = Undefined SignedOverflow.
Proof.
  intros Hkey Hiv Hn Hks. unfold INT_MAX in Hks.
  unfold trivium_api. rewrite Hkey, Hiv. cbn [bind].
  rewrite trivium64_setseed_eq. cbn [bind].
  set (gs := seeded kw iw).
  pose proof (Z.mod_pos_bound n 8 ltac:(lia)) as Hr.
  assert (Hbound : 2 ^ 31 <= n - n mod 8)
    by (unfold INT_MAX in Hn; Z.div_mod_to_equations; lia).
  set (r := n mod 8) in *.
  rewrite (wrap_size_small (n - r)) by lia.
  assert (exists k : nat, Z.of_nat k = 2 ^ 28 - 1) as [k Hk]
    by (exists (Z.to_nat (2 ^ 28 - 1)); lia).
  destruct (firstn_length_split ks (8 * k)) as (mid & rest & -> & Hmid); [lia|].
  rewrite length_app in Hks.
  destruct (firstn_length_split rest 8) as (m8 & post & -> & Hm8); [lia|].
  assert (exists fuel, Z.to_nat (n - r) = (k + S fuel)%nat) as [fuel ->]
    by (exists (Z.to_nat (n - r) - k - 1)%nat; lia).
  change (0, gs, mid ++ m8 ++ post)
    with (Z.of_nat (length (@nil byte)), gs, [] ++ mid ++ m8 ++ post).
  rewrite (full_loop k) by (unfold INT_MAX; cbn [length]; lia).
  cbn [length app].
  rewrite (while_undefined _ _ _ _ SignedOverflow); [reflexivity| |].
  - unfold full_cond.
    rewrite size_of_int_small by (unfold INT_MAX; lia).
    apply Z.ltb_lt. lia.
  - unfold full_body.
    destruct (trivium64_next (steps k gs)) as [z g'].
    replace (Z.of_nat 0 + 8 * Z.of_nat k)
      with (Z.of_nat (length (stream_bytes k gs)))
      by (rewrite stream_bytes_length; lia).
    rewrite uint64_to_bytes_spec by exact Hm8. cbn [bind].
    rewrite int_add_overflow
      by (rewrite stream_bytes_length; unfold INT_MAX; lia).
    reflexivity.
Qed.

(** X16: the exact precondition of [trivium_api].  For a length in the
    range of [size_t] the call returns if and only if the key and the
    sequence number have eight bytes or more, the length is at most
    [INT_MAX] and the buffer has that many bytes; and its loops end in
    every case, within the number of iterations their bounds give. *)
Theorem trivium_api_returns_iff (g : state) (key iv : list byte) (n : Z)
    (ks : list byte) :
  0 <= n < 2 ^ 64 ->
  ((exists res, trivium_api g key iv n ks = Ok res) <->
   (8 <= length key)%nat /\ (8 <= length iv)%nat /\
   n <= INT_MAX /\ n <= Z.of_nat (length ks)) /\
  trivium_api g key iv n ks <> OutOfFuel.
Proof.
  intros Hn.
  destruct (Nat.lt_ge_cases (length key) 8) as [Hk|Hk].
  { assert (H : trivium_api g key iv n ks = Undefined OutOfBounds)
      by (unfold trivium_api; rewrite (bytes_to_uint64_short key Hk);
          reflexivity).
    rewrite H. split; [|discriminate].
    split; [intros [res Hres]; discriminate Hres | lia]. }
  destruct (bytes_to_uint64_decodes key Hk) as [Hkw _].
  destruct (Nat.lt_ge_cases (length iv) 8) as [Hi|Hi].
  { assert (H : trivium_api g key iv n ks = Undefined OutOfBounds)
      by (unfold trivium_api; rewrite Hkw; cbn [bind];
          rewrite (bytes_to_uint64_short iv Hi); reflexivity).
    rewrite H. split; [|discriminate].
    split; [intros [res Hres]; discriminate Hres | lia]. }
  destruct (bytes_to_uint64_decodes iv Hi) as [Hiw _].
  destruct (Z_le_gt_dec n INT_MAX) as [Hle|Hgt].
  - destruct (Z_le_gt_dec n (Z.of_nat (length ks))) as [Hcap|Hcap].
    + rewrite (trivium_api_in_range g key iv n ks _ _ Hkw Hiw) by lia.
      split; [|discriminate].
      split; [intros _; repeat split; assumption | intros _; eexists; reflexivity].
    + rewrite (trivium_api_overrun g key iv n ks _ _ Hkw Hiw) by lia.
      split; [|discriminate].
      split; [intros [res Hres]; discriminate Hres | lia].
  - destruct (Z_le_gt_dec (Z.of_nat (length ks)) INT_MAX) as [Hcap|Hcap].
    + rewrite (trivium_api_overrun g key iv n ks _ _ Hkw Hiw) by lia.
      split; [|discriminate].
      split; [intros [res Hres]; discriminate Hres | lia].
    + rewrite (trivium_api_overflow_any g key iv n ks _ _ Hkw Hiw) by lia.
      split; [|discriminate].
      split; [intros [res Hres]; discriminate Hres | lia].
Qed.

Lemma trivium_api_returns_iff_witness :
  ((exists res,
      trivium_api (mkState 0 0 0 0 0 0) (repeat Byte.x01 8) (repeat Byte.x02 8)
        13 (repeat Byte.x00 12) = Ok res) <->
   (8 <= length (repeat Byte.x01 8))%nat /\
   (8 <= length (repeat Byte.x02 8))%nat /\
   13 <= INT_MAX /\ 13 <= Z.of_nat (length (repeat Byte.x00 12))) /\
  trivium_api (mkState 0 0 0 0 0 0) (repeat Byte.x01 8) (repeat Byte.x02 8)
    13 (repeat Byte.x00 12) <> OutOfFuel.
Proof.
  apply trivium_api_returns_iff. lia.
Defined.

Lemma bytes_to_uint64_firstn b :
  bytes_to_uint64 (firstn 8 b) = bytes_to_uint64 b.
Proof.
  destruct (Nat.lt_ge_cases (length b) 8) as [Hlt|Hge].
  - rewrite firstn_all2 by lia. reflexivity.
  - destruct (bytes_to_uint64_decodes b Hge) as [-> _].
    destruct (bytes_to_uint64_decodes (firstn 8 b)) as [-> _].
    + rewrite firstn_length_le by exact Hge. lia.
    + rewrite firstn_firstn. reflexivity.
Qed.

(** X17: only the first eight bytes of the key and of the sequence number
    count: [trivium_api] on longer buffers is [trivium_api] on their first
    eight bytes, in result and in failure. *)
Theorem trivium_api_reads_eight_bytes (g : state) (key iv : list byte)
    (n : Z) (ks : list byte) :
  trivium_api g key iv n ks =
  trivium_api g (firstn 8 key) (firstn 8 iv) n ks.
Proof.
  unfold trivium_api. rewrite !bytes_to_uint64_firstn. reflexivity.
Qed.

(** X18: the registers follow bit-serial Trivium in state, not only in
    output: [m] steps after the registers were seeded with a 64-bit key
    and sequence number they hold, in the 93, 84 and 111 low bits of the
    three pairs, the state of bit-serial Trivium [64 * m] rounds after the
    canonical initial state. *)
Theorem steps_refine_rounds (key seq : Z) (m : nat) (g : state) :
  u64_ok key -> u64_ok seq ->
  bits_of_state (steps m (seed_registers key seq g)) =
  TriviumRef.rounds (64 * m) (TriviumRef.init key seq).
Proof.
  intros Hk Hs.
  rewrite bits_of_steps by (apply seed_registers_ok; assumption).
  rewrite bits_of_seed_registers. reflexivity.
Qed.

Lemma steps_refine_rounds_witness :
  bits_of_state
    (steps 2 (seed_registers 0x1112131415161718 0xAAABACADADAFFFCC
                (mkState 1 2 3 4 5 6))) =
  TriviumRef.rounds (64 * 2)
    (TriviumRef.init 0x1112131415161718 0xAAABACADADAFFFCC).
Proof.
  apply steps_refine_rounds; unfold u64_ok; lia.
Defined.
